(** * fix_errors.py: the AppError rewriting script

    A shallow embedding of [src/fix_errors.py]: seven [re.sub] calls that
    rewrite old-form [AppError::Tag(...)] calls into structured literals,
    and the driver that runs them over a fixed list of files. *)

From Stdlib Require Import String Ascii List NArith Bool Lia Arith Permutation.
Import ListNotations.
Open Scope list_scope.

(** ** Text

    A Python [str] is a sequence of code points; a code point is an [N].
    [str] reads an ASCII literal of this file as such a text. *)

Definition char := N.
Definition text := list char.

Definition str (s : string) : text :=
  map N_of_ascii (list_ascii_of_string s).

(** The double quote, the line feed (the template's [\n]) and the other
    characters the statements name. *)
Definition dq : char := 34%N.
Definition nl : char := 10%N.
Definition rparen : char := 41%N.
Definition lparen : char := 40%N.
Definition backslash : char := 92%N.

(** ** The regular expressions

    Each of the seven patterns has the shape [open([^c]+)close]: a literal,
    one capturing group made of a greedy negated one-character class, and a
    literal.  Each template has one reference [\1]: the text before it and
    the text after it. *)

Record rule := Rule {
  r_open : text;
  r_excl : char;
  r_close : text;
  r_pre : text;
  r_post : text
}.

(** Literal text at the head of [s]; the rest of [s] when it is there. *)
Fixpoint strip_prefix (p s : text) : option text :=
  match p, s with
  | [], _ => Some s
  | _ :: _, [] => None
  | a :: p', b :: s' => if N.eqb a b then strip_prefix p' s' else None
  end.

(** [[^c]+] followed by the literal [close], the way a backtracking matcher
    runs it: take one more character while the class allows it and the rest
    still matches (greedy), and fall back to stopping here. *)
Fixpoint match_plus (c : char) (close : text) (s : text) : option (text * text) :=
  match s with
  | [] => None
  | a :: s' =>
      if N.eqb a c then None
      else match match_plus c close s' with
           | Some (g, rest) => Some (a :: g, rest)
           | None =>
               match strip_prefix close s' with
               | Some rest => Some ([a], rest)
               | None => None
               end
           end
  end.

(** A match of the pattern at the head of [s]: the group and what follows
    the match. *)
Definition match_at (r : rule) (s : text) : option (text * text) :=
  match strip_prefix (r_open r) s with
  | Some s' => match_plus (r_excl r) (r_close r) s'
  | None => None
  end.

(** The template with [\1] replaced by the group. *)
Definition expand (r : rule) (g : text) : text := r_pre r ++ g ++ r_post r.

(** [re.sub(pattern, template, s)]: scan from the left; at a match emit the
    expanded template and go on after the match, otherwise copy one
    character.  No pattern here matches the empty string, so every step
    consumes a character: [re_sub] gives the scan one step more than the
    text has characters, and never runs out ([sub_fuel_stable]). *)
Fixpoint sub_fuel (fuel : nat) (r : rule) (s : text) : text :=
  match fuel with
  | O => s
  | S k =>
      match match_at r s with
      | Some (g, rest) => expand r g ++ sub_fuel k r rest
      | None =>
          match s with
          | [] => []
          | a :: s' => a :: sub_fuel k r s'
          end
      end
  end.

Definition re_sub (r : rule) (s : text) : text := sub_fuel (S (length s)) r s.

(** ** The seven rules of [fix_app_error_usage]

    Each rule is one [re.sub] call of the source: [r_open], [r_excl] and
    [r_close] spell its pattern, [r_pre] and [r_post] its template, with
    the template's [\n] as line feeds. *)

Definition indent : text := str "                ".
Definition outdent : text := str "            ".

(** [s] between double quotes. *)
Definition quoted (s : string) : text := [dq] ++ str s ++ [dq].

Definition rule_file_system : rule :=
  Rule (str "AppError::FileSystem(" ++ [dq]) dq ([dq] ++ str ")")
       (str "AppError::FileSystemError {" ++ [nl] ++
        indent ++ str "message: " ++ [dq])
       ([dq] ++ str ".to_string()," ++ [nl] ++
        indent ++ str "path: " ++ quoted "unknown" ++ str ".to_string()," ++ [nl] ++
        indent ++ str "operation: " ++ quoted "unknown" ++ str ".to_string()," ++ [nl] ++
        outdent ++ str "}").

Definition rule_process : rule :=
  Rule (str "AppError::Process(" ++ [dq]) dq ([dq] ++ str ")")
       (str "AppError::ProcessError {" ++ [nl] ++
        indent ++ str "message: " ++ [dq])
       ([dq] ++ str ".to_string()," ++ [nl] ++
        indent ++ str "process_id: None," ++ [nl] ++
        indent ++ str "operation: " ++ quoted "unknown" ++ str ".to_string()," ++ [nl] ++
        outdent ++ str "}").

Definition rule_validation : rule :=
  Rule (str "AppError::Validation(" ++ [dq]) dq ([dq] ++ str ")")
       (str "AppError::ValidationError {" ++ [nl] ++
        indent ++ str "message: " ++ [dq])
       ([dq] ++ str ".to_string()," ++ [nl] ++
        indent ++ str "field: " ++ quoted "unknown" ++ str ".to_string()," ++ [nl] ++
        indent ++ str "value: " ++ quoted "unknown" ++ str ".to_string()," ++ [nl] ++
        outdent ++ str "}").

Definition rule_server_not_found : rule :=
  Rule (str "AppError::ServerNotFound(") rparen (str ")")
       (str "AppError::ServerError {" ++ [nl] ++
        indent ++ str "message: " ++ quoted "Server not found" ++ str ".to_string()," ++ [nl] ++
        indent ++ str "server_id: ")
       (str "," ++ [nl] ++
        indent ++ str "operation: " ++ quoted "get" ++ str ".to_string()," ++ [nl] ++
        outdent ++ str "}").

Definition rule_internal : rule :=
  Rule (str "AppError::Internal(" ++ [dq]) dq ([dq] ++ str ")")
       (str "AppError::InternalError {" ++ [nl] ++
        indent ++ str "message: " ++ [dq])
       ([dq] ++ str ".to_string()," ++ [nl] ++
        indent ++ str "operation: " ++ quoted "unknown" ++ str ".to_string()," ++ [nl] ++
        outdent ++ str "}").

Definition rule_authentication : rule :=
  Rule (str "AppError::Authentication(" ++ [dq]) dq ([dq] ++ str ")")
       (str "AppError::AuthenticationError {" ++ [nl] ++
        indent ++ str "message: " ++ [dq])
       ([dq] ++ str ".to_string()," ++ [nl] ++
        indent ++ str "reason: crate::core::error_handler::AuthErrorReason::InternalError," ++ [nl] ++
        outdent ++ str "}").

Definition rule_authorization : rule :=
  Rule (str "AppError::Authorization(" ++ [dq]) dq ([dq] ++ str ")")
       (str "AppError::AuthorizationError {" ++ [nl] ++
        indent ++ str "message: " ++ [dq])
       ([dq] ++ str ".to_string()," ++ [nl] ++
        indent ++ str "required_permission: " ++ quoted "unknown" ++ str ".to_string()," ++ [nl] ++
        indent ++ str "user_role: " ++ quoted "unknown" ++ str ".to_string()," ++ [nl] ++
        outdent ++ str "}").

(** The rules in the order the script applies them. *)
Definition rules : list rule :=
  [rule_file_system; rule_process; rule_validation; rule_server_not_found;
   rule_internal; rule_authentication; rule_authorization].

(** The in-memory part of [fix_app_error_usage]: [content] threaded through
    the [re.sub] calls of a list of rules, first rule first. *)
Definition apply_rules (rs : list rule) (content : text) : text :=
  fold_left (fun c r => re_sub r c) rs content.

Definition transform (content : text) : text := apply_rules rules content.

(** The old-form call a rule looks for and the structure it writes. *)
Definition old_form (r : rule) (g : text) : text := r_open r ++ g ++ r_close r.
Definition new_form (r : rule) (g : text) : text := expand r g.

(** ** Occurrences *)

(** [c] does not occur in [g]. *)
Definition free (c : char) (g : text) : bool :=
  forallb (fun a => negb (N.eqb a c)) g.

(** The pattern of [r] matches at some position of [s]. *)
Fixpoint any_match (r : rule) (s : text) : bool :=
  match match_at r s with
  | Some _ => true
  | None =>
      match s with
      | [] => false
      | _ :: s' => any_match r s'
      end
  end.

Definition is_prefix (p s : text) : bool :=
  match strip_prefix p s with Some _ => true | None => false end.

(** The literal [p] occurs in [s]; the number of positions where it does. *)
Fixpoint occurs (p s : text) : bool :=
  is_prefix p s ||
  match s with
  | [] => false
  | _ :: s' => occurs p s'
  end.

Fixpoint count_occurrences (p s : text) : nat :=
  (if is_prefix p s then 1 else 0) +
  match s with
  | [] => 0
  | _ :: s' => count_occurrences p s'
  end.

(** The number of positions of [s] where the pattern of [r] matches. *)
Fixpoint count_matches (r : rule) (s : text) : nat :=
  (match match_at r s with Some _ => 1 | None => 0 end) +
  match s with
  | [] => 0
  | _ :: s' => count_matches r s'
  end.

(** What is left of [s] after its longest prefix without [c]. *)
Fixpoint skip_run (c : char) (s : text) : text :=
  match s with
  | [] => []
  | a :: s' => if N.eqb a c then s else skip_run c s'
  end.

(** [p] and [w] differ at a position both have. *)
Fixpoint clash (p w : text) : bool :=
  match p, w with
  | a :: p', b :: w' => if N.eqb a b then clash p' w' else true
  | _, _ => false
  end.

(** The non-empty suffixes of [w], longest first. *)
Fixpoint tails1 (w : text) : list text :=
  match w with
  | [] => []
  | _ :: w' => w :: tails1 w'
  end.

Definition starts_with (c : char) (s : text) : bool :=
  match s with
  | a :: _ => N.eqb a c
  | [] => false
  end.

(** A text cut into occurrences: each entry is the text before an
    occurrence and the group of the occurrence; [tail] follows the last
    one.  [form] writes an occurrence ([old_form r] or [new_form r]). *)
Fixpoint assemble (form : text -> text) (occs : list (text * text)) (tail : text) : text :=
  match occs with
  | [] => tail
  | (sep, g) :: occs' => sep ++ form g ++ assemble form occs' tail
  end.

(** A group the class of [r] accepts. *)
Definition valid_group (r : rule) (g : text) : bool :=
  match g with [] => false | _ :: _ => free (r_excl r) g end.

(** The six rules with a quoted argument. *)
Definition string_rules : list rule :=
  [rule_file_system; rule_process; rule_validation;
   rule_internal; rule_authentication; rule_authorization].

(** ** The file system and the driver

    A path names a file, a directory or nothing; a file holds its text,
    decoded.  Opening a directory raises.  Other failures of the operating
    system (permissions, bytes that are not UTF-8, a full disk) are not
    part of the model. *)

Definition path := string.

Inductive node :=
| File (content : text)
| Dir.

Definition filesystem := path -> option node.

Inductive exn :=
| FileNotFoundError
| IsADirectoryError.

Inductive result (A : Type) :=
| Ok (a : A)
| Raise (e : exn).
Arguments Ok {A} a.
Arguments Raise {A} e.

(** [os.path.exists] *)
Definition path_exists (fs : filesystem) (p : path) : bool :=
  match fs p with Some _ => true | None => false end.

Definition write_file (fs : filesystem) (p : path) (content : text) : filesystem :=
  fun q => if String.eqb q p then Some (File content) else fs q.

Definition cr : char := 13%N.

(** Text mode: reading turns [\r\n] and [\r] into [\n]; writing turns [\n]
    into the platform's line separator. *)
Fixpoint read_newlines (s : text) : text :=
  match s with
  | [] => []
  | a :: s' =>
      if N.eqb a cr then
        nl :: match s' with
              | b :: s'' => if N.eqb b nl then read_newlines s'' else read_newlines s'
              | [] => read_newlines s'
              end
      else a :: read_newlines s'
  end.

Definition write_newlines (linesep : text) (s : text) : text :=
  flat_map (fun a => if N.eqb a nl then linesep else [a]) s.

(** [fix_app_error_usage(file_path)]: read, rewrite, write back. *)
Definition fix_app_error_usage (linesep : text) (fs : filesystem) (file_path : path)
  : result filesystem :=
  match fs file_path with
  | None => Raise FileNotFoundError
  | Some Dir => Raise IsADirectoryError
  | Some (File content) =>
      Ok (write_file fs file_path
            (write_newlines linesep (transform (read_newlines content))))
  end.

Definition files_to_fix : list path :=
  ["hostd/src/core/file_manager.rs"; "hostd/src/core/security.rs";
   "hostd/src/core/monitoring.rs"; "hostd/src/core/websocket.rs"]%string.

(** The state of a run: the file system and the lines printed so far. *)
Record world := World {
  w_fs : filesystem;
  w_out : list string
}.

Definition print (line : string) (w : world) : world :=
  World (w_fs w) (w_out w ++ [line]).

(** The loop of [main] over a list of paths.  An exception stops the loop;
    what was printed and written before it stays. *)
Fixpoint run (linesep : text) (paths : list path) (w : world) : world * option exn :=
  match paths with
  | [] => (w, None)
  | file_path :: paths' =>
      if path_exists (w_fs w) file_path then
        let w1 := print ("Fixing " ++ file_path ++ "...")%string w in
        match fix_app_error_usage linesep (w_fs w1) file_path with
        | Ok fs' => run linesep paths' (World fs' (w_out w1))
        | Raise e => (w1, Some e)
        end
      else
        run linesep paths' (print ("File not found: " ++ file_path)%string w)
  end.


(** ** How two rules can interfere

    [re_sub r] turns a text without a match of [r'] into a text without a
    match of [r'] when the literals of the two rules keep apart; the checks
    below say how, and are decided by evaluation for each pair of rules. *)

(** The literal [p], then whatever [F] matches. *)
Definition after {T : Type} (p : text) (F : text -> option T) (s : text) : option T :=
  match strip_prefix p s with
  | Some s' => F s'
  | None => None
  end.

(** The literal [close] right after the run of characters other than [c]. *)
Definition close_after_run (c : char) (close : text) (s : text) : option text :=
  strip_prefix close (skip_run c s).

(** Every non-empty suffix of [p] clashes with [w]. *)
Definition clash_all (p w : text) : bool :=
  forallb (fun p' => clash p' w) (tails1 p).

Definition starts_other (c : char) (s : text) : bool :=
  match s with
  | a :: _ => negb (N.eqb a c)
  | [] => false
  end.

(** [s] is a text without [c] followed by [c]. *)
Definition ends_sep (c : char) (s : text) : bool :=
  match rev s with
  | a :: l => N.eqb a c && free c l
  | [] => false
  end.

Definition common_ok (r r' : rule) : bool :=
  starts_with (r_excl r) (r_close r) &&
  starts_with (r_excl r') (r_close r') &&
  clash_all (r_open r') (r_pre r) &&
  clash_all (tl (r_close r')) (r_pre r) &&
  forallb (clash (r_open r')) (tails1 (r_pre r)) &&
  forallb (clash (r_open r')) (tails1 (r_post r)) &&
  starts_other (r_excl r') (r_open r) &&
  starts_other (r_excl r') (r_pre r).

(** Both classes exclude the same character, which ends the opening
    literals and the head of the template (two rules with a quoted
    argument). *)
Definition same_class (r r' : rule) : bool :=
  N.eqb (r_excl r) (r_excl r') &&
  ends_sep (r_excl r') (r_open r) &&
  ends_sep (r_excl r') (r_pre r) &&
  ends_sep (r_excl r') (r_open r') &&
  (length (tl (r_close r')) <=? 1) &&
  match r_close r with
  | [a; x] => N.eqb a (r_excl r') && negb (N.eqb x (r_excl r'))
  | _ => false
  end &&
  starts_with (r_excl r') (r_post r) &&
  (free (r_excl r') (tl (r_post r)) ||
   clash (r_close r') (skip_run (r_excl r') (tl (r_post r)))).

(** The closing literal of [r'] needs the character the group of [r]
    excludes, and the template of [r] never has it after the character
    [r'] excludes (rule 4, then a rule with a quoted argument). *)
Definition closed_out (r r' : rule) : bool :=
  match r_close r' with
  | [a; b] => N.eqb a (r_excl r') && N.eqb b (r_excl r)
  | _ => false
  end &&
  match r_post r with
  | x :: _ => free x (r_open r') && negb (N.eqb x (r_excl r))
  | [] => false
  end &&
  negb (free (r_excl r') (r_pre r)) &&
  clash (r_close r') (skip_run (r_excl r') (r_pre r)) &&
  negb (free (r_excl r') (r_post r)) &&
  clash (r_close r') (skip_run (r_excl r') (r_post r)).

(** The closing literal of [r'] is the excluded character alone and the old
    form of [r] ends with it, after a character the opening literal of [r']
    does not have (a rule with a quoted argument, then rule 4). *)
Definition closed_in (r r' : rule) : bool :=
  match r_close r' with
  | [a] => N.eqb a (r_excl r')
  | _ => false
  end &&
  match r_close r, r_post r with
  | x :: lr, y :: _ =>
      N.eqb x y && free x (r_open r') && negb (N.eqb x (r_excl r')) &&
      negb (free (r_excl r') lr)
  | _, _ => false
  end.

Definition compatible (r r' : rule) : bool :=
  common_ok r r' && (same_class r r' || closed_out r r' || closed_in r r').

(** ** Texts with occurrences of one rule only *)

Fixpoint text_eqb (s t : text) : bool :=
  match s, t with
  | [], [] => true
  | a :: s', b :: t' => N.eqb a b && text_eqb s' t'
  | _, _ => false
  end.

Definition rule_eqb (r r' : rule) : bool :=
  text_eqb (r_open r) (r_open r') && N.eqb (r_excl r) (r_excl r') &&
  text_eqb (r_close r) (r_close r') &&
  text_eqb (r_pre r) (r_pre r') && text_eqb (r_post r) (r_post r').

(** No pattern of a rule other than [r] occurs in [t]. *)
Definition others_silent (r : rule) (t : text) : bool :=
  forallb (fun r' => rule_eqb r' r || negb (any_match r' t)) rules.

(** No pattern of any rule occurs in [t]. *)
Definition all_silent (t : text) : bool :=
  forallb (fun r => negb (any_match r t)) rules.

Definition valid_occs (r : rule) (occs : list (text * text)) : bool :=
  forallb (fun o => valid_group r (snd o)) occs.

(** The field of the new structure that carries the captured text:
    [message: "<msg>".to_string(),] for the rules with a quoted argument,
    [server_id: <expr>,] for the ServerNotFound rule. *)
Definition field_open (r : rule) : text :=
  if N.eqb (r_excl r) dq then str "message: " ++ [dq] else str "server_id: ".

Definition field_close (r : rule) : text :=
  if N.eqb (r_excl r) dq then [dq] ++ str ".to_string()," else str ",".

Definition carried_field (r : rule) (g : text) : text :=
  field_open r ++ g ++ field_close r.

(** What a run is expected to print for a path, and to do to its file. *)
Definition notice (fs : filesystem) (p : path) : string :=
  if path_exists fs p then ("Fixing " ++ p ++ "...")%string
  else ("File not found: " ++ p)%string.

Definition rewrite_file (linesep : text) (fs : filesystem) (p : path) : filesystem :=
  match fs p with
  | Some (File content) =>
      write_file fs p (write_newlines linesep (transform (read_newlines content)))
  | _ => fs
  end.

(** ** What a scan finds

    No rule of [rs] matches at the head of [s]; at no position of [w] in
    [w ++ X]. *)
Definition none_at (rs : list rule) (s : text) : bool :=
  forallb (fun r => match match_at r s with None => true | Some _ => false end) rs.

Fixpoint none_in (rs : list rule) (w X : text) : bool :=
  match w with
  | [] => true
  | _ :: w' => none_at rs (w ++ X) && none_in rs w' X
  end.

(** The occurrences of [occs] are the ones a scan from the left finds: no
    match starts in the text before an occurrence, nor in [tail]. *)
Fixpoint leftmost (r : rule) (occs : list (text * text)) (tail : text) : bool :=
  match occs with
  | [] => negb (any_match r tail)
  | (sep, g) :: occs' =>
      none_in [r] sep (old_form r g ++ assemble (old_form r) occs' tail) &&
      leftmost r occs' tail
  end.

(** [re.finditer]: the matches [re.sub] replaces, each with the text
    between the match before it and itself, and the text after the last. *)
Fixpoint finditer_fuel (fuel : nat) (r : rule) (s : text) : list (text * text) * text :=
  match fuel with
  | O => ([], s)
  | S k =>
      match match_at r s with
      | Some (g, rest) =>
          let (occs, tail) := finditer_fuel k r rest in (([], g) :: occs, tail)
      | None =>
          match s with
          | [] => ([], [])
          | a :: s' =>
              match finditer_fuel k r s' with
              | ([], tail) => ([], a :: tail)
              | ((sep, g) :: occs, tail) => ((a :: sep, g) :: occs, tail)
              end
          end
      end
  end.

Definition finditer (r : rule) (s : text) : list (text * text) * text :=
  finditer_fuel (S (length s)) r s.

(** ** Calls left open

    No ServerNotFound call is left open at the end of [w]: wherever
    [AppError::ServerNotFound(] occurs in [w], a closing parenthesis
    follows it in [w]. *)
Fixpoint closed_calls (w : text) : bool :=
  match w with
  | [] => true
  | _ :: w' =>
      (negb (is_prefix (r_open rule_server_not_found) w) || negb (free rparen w)) &&
      closed_calls w'
  end.

(** ** Matches that keep apart *)

(** The rule of [rs] that matches at the head of [s], with its group and
    what follows the match. *)
Fixpoint first_match (rs : list rule) (s : text) : option (rule * (text * text)) :=
  match rs with
  | [] => None
  | r :: rs' =>
      match match_at r s with
      | Some m => Some (r, m)
      | None => first_match rs' s
      end
  end.

(** The rules other than [r]. *)
Definition others (r : rule) : list rule :=
  filter (fun r' => negb (rule_eqb r' r)) rules.

(** A group without the opening literal of its own rule. *)
Definition closed_group (r : rule) (g : text) : bool :=
  negb (occurs (r_open r) g).

(** The scan of [s] for the seven patterns at once, from the left, one
    match after the other.  Inside a match it finds, no match of another
    rule begins; with [strict], no match of any rule begins there and the
    group of the match is a closed one. *)
Fixpoint apart_fuel (strict : bool) (fuel : nat) (s : text) : bool :=
  match fuel with
  | O => false
  | S k =>
      match first_match rules s with
      | Some (r, (g, rest)) =>
          (if strict
           then closed_group r g && none_in rules (tl (old_form r g)) rest
           else none_in (others r) (tl (old_form r g)) rest) &&
          apart_fuel strict k rest
      | None =>
          match s with
          | [] => true
          | _ :: s' => apart_fuel strict k s'
          end
      end
  end.

(** The matches of different rules keep apart in [s]; all the matches keep
    apart in [s] and their groups are closed. *)
Definition rules_apart (s : text) : bool := apart_fuel false (S (length s)) s.


(** * Properties *)

(** ** Literals *)

Lemma strip_prefix_app (p s : text) : strip_prefix p (p ++ s) = Some s.
Proof.
  induction p as [|a p IH]; simpl; [destruct s; reflexivity|].
  now rewrite N.eqb_refl.
Qed.

Lemma strip_prefix_inv (p s s' : text) :
  strip_prefix p s = Some s' -> s = p ++ s'.
Proof.
  revert s; induction p as [|a p IH]; intros s H.
  - destruct s; simpl in H; now inversion H.
  - destruct s as [|b s]; simpl in H; [discriminate|].
    destruct (N.eqb_spec a b) as [->|]; [|discriminate].
    simpl; f_equal; auto.
Qed.

Lemma strip_prefix_length (p s s' : text) :
  strip_prefix p s = Some s' -> length s = length p + length s'.
Proof.
  intros H; apply strip_prefix_inv in H; subst; now rewrite length_app.
Qed.

(** ** The class and the group *)

Lemma free_cons (c a : char) (g : text) :
  free c (a :: g) = negb (N.eqb a c) && free c g.
Proof. reflexivity. Qed.

Lemma free_app (c : char) (g h : text) :
  free c (g ++ h) = free c g && free c h.
Proof. unfold free; apply forallb_app. Qed.

Lemma match_plus_length (c : char) (close s g rest : text) :
  match_plus c close s = Some (g, rest) -> length rest < length s.
Proof.
  revert g rest; induction s as [|a s IH]; intros g rest H; simpl in H.
  - discriminate.
  - destruct (N.eqb a c); [discriminate|].
    destruct (match_plus c close s) as [[g' rest']|] eqn:E.
    + inversion H; subst. specialize (IH _ _ eq_refl). simpl; lia.
    + destruct (strip_prefix close s) as [rest'|] eqn:E'; [|discriminate].
      inversion H; subst. apply strip_prefix_length in E'. simpl; lia.
Qed.

(** Backtracking never finds a shorter group: the literal after the class
    starts with the excluded character, so the group is the whole run. *)
Lemma match_plus_intro (c : char) (l g rest : text) :
  g <> [] -> free c g = true ->
  match_plus c (c :: l) (g ++ c :: l ++ rest) = Some (g, rest).
Proof.
  induction g as [|a g IH]; intros Hne Hf; [congruence|].
  rewrite free_cons in Hf. apply andb_true_iff in Hf as [Ha Hg].
  apply negb_true_iff in Ha.
  simpl. rewrite Ha.
  destruct g as [|b g].
  - simpl. rewrite !N.eqb_refl, strip_prefix_app. reflexivity.
  - rewrite IH; [reflexivity|discriminate|assumption].
Qed.

Lemma match_plus_inv (c : char) (l s g rest : text) :
  match_plus c (c :: l) s = Some (g, rest) ->
  g <> [] /\ free c g = true /\ s = g ++ c :: l ++ rest.
Proof.
  revert g rest; induction s as [|a s IH]; intros g rest H; cbn [match_plus] in H.
  - discriminate.
  - destruct (N.eqb a c) eqn:Ha; [discriminate|].
    destruct (match_plus c (c :: l) s) as [[g' rest']|] eqn:E.
    + inversion H; subst. destruct (IH _ _ eq_refl) as (_ & Hf & ->).
      split; [discriminate|split; [|reflexivity]].
      rewrite free_cons, Ha, Hf. reflexivity.
    + destruct (strip_prefix (c :: l) s) as [rest'|] eqn:E'; [|discriminate].
      inversion H; subst. apply strip_prefix_inv in E'. subst s.
      split; [discriminate|split; [|reflexivity]].
      rewrite free_cons, Ha. reflexivity.
Qed.

(** ** One substitution *)

Lemma match_at_length (r : rule) (s g rest : text) :
  match_at r s = Some (g, rest) -> length rest < length s.
Proof.
  unfold match_at. destruct (strip_prefix (r_open r) s) as [s'|] eqn:E; [|discriminate].
  intros H. apply match_plus_length in H. apply strip_prefix_length in E. lia.
Qed.

Lemma sub_fuel_stable (r : rule) (n m : nat) (s : text) :
  length s < n -> length s < m -> sub_fuel n r s = sub_fuel m r s.
Proof.
  revert m s; induction n as [|n IH]; intros m s Hn Hm; [lia|].
  destruct m as [|m]; [lia|]. simpl.
  destruct (match_at r s) as [[g rest]|] eqn:E.
  - apply match_at_length in E. f_equal. apply IH; lia.
  - destruct s as [|a s]; [reflexivity|]. simpl in Hn, Hm.
    f_equal. apply IH; lia.
Qed.

Lemma sub_fuel_S (k : nat) (r : rule) (s : text) :
  sub_fuel (S k) r s =
  match match_at r s with
  | Some (g, rest) => expand r g ++ sub_fuel k r rest
  | None => match s with [] => [] | a :: s' => a :: sub_fuel k r s' end
  end.
Proof. reflexivity. Qed.

Lemma re_sub_nil (r : rule) : re_sub r [] = [].
Proof. unfold re_sub; simpl. destruct (match_at r []) as [[g rest]|] eqn:E; [|reflexivity].
  apply match_at_length in E. simpl in E; lia.
Qed.

Lemma any_match_nil (r : rule) : any_match r [] = false.
Proof.
  cbn [any_match]. destruct (match_at r []) as [[g rest]|] eqn:E; [|reflexivity].
  apply match_at_length in E. simpl in E. lia.
Qed.

Lemma re_sub_match (r : rule) (s g rest : text) :
  match_at r s = Some (g, rest) -> re_sub r s = expand r g ++ re_sub r rest.
Proof.
  intros E. unfold re_sub. rewrite (sub_fuel_S (length s)), E. f_equal.
  apply match_at_length in E. apply sub_fuel_stable; lia.
Qed.

Lemma re_sub_skip (r : rule) (a : char) (s : text) :
  match_at r (a :: s) = None -> re_sub r (a :: s) = a :: re_sub r s.
Proof.
  intros E. unfold re_sub. rewrite (sub_fuel_S (length (a :: s))), E.
  reflexivity.
Qed.

Lemma any_match_cons (r : rule) (a : char) (s : text) :
  any_match r (a :: s) = false ->
  match_at r (a :: s) = None /\ any_match r s = false.
Proof.
  cbn [any_match]. destruct (match_at r (a :: s)); [discriminate|auto].
Qed.

(** Zero matches: the text comes back as it is. *)
Lemma re_sub_no_match (r : rule) (s : text) :
  any_match r s = false -> re_sub r s = s.
Proof.
  induction s as [|a s IH]; intros H; [apply re_sub_nil|].
  apply any_match_cons in H as [H1 H2].
  rewrite re_sub_skip by assumption. f_equal; auto.
Qed.

(** ** Scanning a text for a pattern *)

Lemma clash_strip (p w X : text) :
  clash p w = true -> strip_prefix p (w ++ X) = None.
Proof.
  revert w; induction p as [|a p IH]; intros [|b w] H; simpl in H; try discriminate.
  simpl. destruct (N.eqb a b); auto.
Qed.

Lemma tails1_in (w x y : text) :
  w = x ++ y -> y <> [] -> In y (tails1 w).
Proof.
  revert w; induction x as [|a x IH]; intros w -> Hy; simpl.
  - destruct y; [congruence|]. now left.
  - right. now apply IH.
Qed.

Lemma tails1_split (w y : text) :
  In y (tails1 w) -> exists x, w = x ++ y /\ y <> [].
Proof.
  induction w as [|a w IH]; simpl; [tauto|].
  intros [<-|H].
  - exists []. split; [reflexivity|discriminate].
  - destruct (IH H) as (x & -> & Hy). exists (a :: x). now split.
Qed.

Lemma any_match_app_false (r : rule) (w s : text) :
  any_match r (w ++ s) = false -> any_match r s = false.
Proof.
  induction w as [|a w IH]; simpl app; [auto|].
  intros H. apply any_match_cons in H as [_ H]. auto.
Qed.

Lemma any_match_scan (r : rule) (w X : text) :
  (forall y, In y (tails1 w) -> match_at r (y ++ X) = None) ->
  any_match r (w ++ X) = any_match r X.
Proof.
  induction w as [|a w IH]; intros H; [reflexivity|].
  change ((a :: w) ++ X) with (a :: (w ++ X)). cbn [any_match].
  change (a :: (w ++ X)) with ((a :: w) ++ X).
  rewrite (H (a :: w)) by (simpl; auto).
  apply IH. intros y Hy. apply H. simpl; auto.
Qed.

Lemma any_match_unscan (r : rule) (w X y : text) :
  any_match r (w ++ X) = false -> In y (tails1 w) -> match_at r (y ++ X) = None.
Proof.
  induction w as [|a w IH]; simpl tails1; intros H Hy; [destruct Hy|].
  change ((a :: w) ++ X) with (a :: (w ++ X)) in H.
  apply any_match_cons in H as [H1 H2].
  destruct Hy as [<-|Hy]; auto.
Qed.

Lemma any_match_scan_clash (r : rule) (w X : text) :
  forallb (clash (r_open r)) (tails1 w) = true ->
  any_match r (w ++ X) = any_match r X.
Proof.
  intros H. apply any_match_scan. intros y Hy.
  rewrite forallb_forall in H. unfold match_at.
  now rewrite (clash_strip _ _ _ (H y Hy)).
Qed.

(** ** Runs of the class *)

Lemma skip_run_free (c : char) (g X : text) :
  free c g = true -> skip_run c (g ++ X) = skip_run c X.
Proof.
  induction g as [|a g IH]; intros H; [reflexivity|].
  rewrite free_cons in H. apply andb_true_iff in H as [Ha Hg].
  apply negb_true_iff in Ha. simpl. rewrite Ha. auto.
Qed.

Lemma skip_run_hit (c : char) (g X : text) :
  free c g = true -> skip_run c (g ++ c :: X) = c :: X.
Proof.
  intros H. rewrite skip_run_free by assumption. simpl. now rewrite N.eqb_refl.
Qed.

Lemma skip_run_app (c : char) (w X : text) :
  free c w = false -> skip_run c (w ++ X) = skip_run c w ++ X.
Proof.
  induction w as [|a w IH]; intros H; [discriminate|].
  rewrite free_cons in H. simpl. destruct (N.eqb a c); [reflexivity|].
  simpl in H. auto.
Qed.

Lemma skip_run_split (c : char) (s : text) :
  exists g, free c g = true /\ s = g ++ skip_run c s.
Proof.
  induction s as [|a s (g & Hg & E)].
  - exists []. now split.
  - simpl. destruct (N.eqb a c) eqn:Ha.
    + exists []. now split.
    + exists (a :: g). split; [now rewrite free_cons, Ha|].
      simpl. now f_equal.
Qed.

Lemma match_plus_skip (c : char) (l s g rest : text) :
  match_plus c (c :: l) s = Some (g, rest) ->
  strip_prefix (c :: l) (skip_run c s) = Some rest.
Proof.
  intros H. apply match_plus_inv in H as (_ & Hf & ->).
  rewrite skip_run_hit by assumption.
  change (c :: l ++ rest) with ((c :: l) ++ rest). apply strip_prefix_app.
Qed.

Lemma match_plus_of_skip (c a : char) (l s rest : text) :
  N.eqb a c = false ->
  strip_prefix (c :: l) (skip_run c s) = Some rest ->
  exists g, match_plus c (c :: l) (a :: s) = Some (g, rest).
Proof.
  intros Ha H. destruct (skip_run_split c s) as (g & Hg & E).
  apply strip_prefix_inv in H. rewrite H in E.
  exists (a :: g). rewrite E.
  change (a :: g ++ (c :: l) ++ rest) with ((a :: g) ++ c :: l ++ rest).
  apply match_plus_intro; [discriminate|].
  now rewrite free_cons, Ha.
Qed.

(** After a first character of the class, the group fails exactly when the
    literal does not follow the run. *)
Lemma match_plus_none_skip (c a : char) (l s : text) :
  N.eqb a c = false ->
  match_plus c (c :: l) (a :: s) = None ->
  strip_prefix (c :: l) (skip_run c s) = None.
Proof.
  intros Ha H. destruct (strip_prefix (c :: l) (skip_run c s)) as [rest|] eqn:E; [|reflexivity].
  destruct (match_plus_of_skip c a l s rest Ha E) as (g & Hg). congruence.
Qed.

Lemma match_plus_skip_none (c : char) (l s : text) :
  strip_prefix (c :: l) (skip_run c s) = None ->
  match_plus c (c :: l) s = None.
Proof.
  intros H. destruct (match_plus c (c :: l) s) as [[g rest]|] eqn:E; [|reflexivity].
  apply match_plus_skip in E. congruence.
Qed.

(** ** Literals across a separator *)

Lemma free_In (c : char) (g : text) :
  free c g = true -> ~ In c g.
Proof.
  induction g as [|a g IH]; simpl; [tauto|].
  intros H. apply andb_true_iff in H as [Ha Hg]. apply negb_true_iff in Ha.
  intros [->|Hin]; [now rewrite N.eqb_refl in Ha|now apply IH].
Qed.

Lemma strip_prefix_within (x : char) (p w X s1 : text) :
  free x p = true ->
  strip_prefix p (w ++ x :: X) = Some s1 ->
  exists w', w = p ++ w' /\ s1 = w' ++ x :: X.
Proof.
  revert w; induction p as [|a p IH]; intros w Hp H.
  - exists w. destruct w; simpl in H; inversion H; now split.
  - rewrite free_cons in Hp. apply andb_true_iff in Hp as [Ha Hp].
    apply negb_true_iff in Ha.
    destruct w as [|b w]; simpl in H.
    + rewrite Ha in H. discriminate.
    + destruct (N.eqb_spec a b) as [->|]; [|discriminate].
      destruct (IH w Hp H) as (w' & -> & ->). exists w'. now split.
Qed.

Lemma strip_prefix_sep (c : char) (L w X s1 : text) :
  free c L = true -> free c w = true ->
  strip_prefix (L ++ [c]) (w ++ c :: X) = Some s1 -> w = L /\ s1 = X.
Proof.
  revert w; induction L as [|a L IH]; intros w HL Hw H.
  - destruct w as [|b w]; simpl in H.
    + rewrite N.eqb_refl in H. inversion H. now split.
    + rewrite free_cons in Hw. apply andb_true_iff in Hw as [Hb _].
      apply negb_true_iff in Hb. rewrite N.eqb_sym, Hb in H. discriminate.
  - rewrite free_cons in HL. apply andb_true_iff in HL as [Ha HL].
    apply negb_true_iff in Ha.
    destruct w as [|b w]; simpl in H.
    + rewrite Ha in H. discriminate.
    + destruct (N.eqb_spec a b) as [->|]; [|discriminate].
      rewrite free_cons in Hw. apply andb_true_iff in Hw as [_ Hw].
      destruct (IH w HL Hw H) as (-> & ->). now split.
Qed.

(** ** Matches and old forms *)

Lemma starts_with_inv (c : char) (s : text) :
  starts_with c s = true -> exists l, s = c :: l.
Proof.
  destruct s as [|a s]; simpl; [discriminate|].
  intros H. apply N.eqb_eq in H. subst. now exists s.
Qed.

Lemma valid_group_inv (r : rule) (g : text) :
  valid_group r g = true -> g <> [] /\ free (r_excl r) g = true.
Proof.
  destruct g; simpl; [discriminate|]. intros H; split; [discriminate|exact H].
Qed.

Lemma match_at_intro (r : rule) (g rest : text) :
  starts_with (r_excl r) (r_close r) = true ->
  valid_group r g = true ->
  match_at r (old_form r g ++ rest) = Some (g, rest).
Proof.
  intros Hc Hg. apply starts_with_inv in Hc as (l & Hl).
  apply valid_group_inv in Hg as [Hne Hf].
  unfold match_at, old_form. rewrite <- app_assoc, strip_prefix_app.
  rewrite Hl, <- !app_assoc. simpl. now apply match_plus_intro.
Qed.

Lemma match_at_inv (r : rule) (s g rest : text) :
  starts_with (r_excl r) (r_close r) = true ->
  match_at r s = Some (g, rest) ->
  valid_group r g = true /\ s = old_form r g ++ rest.
Proof.
  intros Hc H. apply starts_with_inv in Hc as (l & Hl).
  unfold match_at in H.
  destruct (strip_prefix (r_open r) s) as [s'|] eqn:E; [|discriminate].
  apply strip_prefix_inv in E. rewrite Hl in H.
  apply match_plus_inv in H as (Hne & Hf & ->).
  split.
  - destruct g; [congruence|exact Hf].
  - unfold old_form. rewrite E, Hl, <- !app_assoc. reflexivity.
Qed.

(** [re.sub] by cases: end of text, a character copied, an occurrence
    rewritten. *)
Lemma re_sub_ind (r : rule) (P : text -> text -> Prop) :
  starts_with (r_excl r) (r_close r) = true ->
  P [] [] ->
  (forall a t, match_at r (a :: t) = None ->
               P t (re_sub r t) -> P (a :: t) (a :: re_sub r t)) ->
  (forall g t, valid_group r g = true ->
               P t (re_sub r t) ->
               P (old_form r g ++ t) (new_form r g ++ re_sub r t)) ->
  forall t, P t (re_sub r t).
Proof.
  intros Hc Hnil Hskip Hocc t.
  remember (length t) as n eqn:Hn. revert t Hn.
  induction n as [n IH] using lt_wf_ind. intros t Hn.
  destruct (match_at r t) as [[g rest]|] eqn:E.
  - rewrite (re_sub_match _ _ _ _ E).
    pose proof (match_at_length _ _ _ _ E) as Hlen.
    apply match_at_inv in E as [Hg ->]; [|assumption].
    apply Hocc; [assumption|]. apply (IH (length rest)); [lia|reflexivity].
  - destruct t as [|a t]; [now rewrite re_sub_nil|].
    rewrite re_sub_skip by assumption.
    apply Hskip; [assumption|]. apply (IH (length t)); [simpl in Hn; lia|reflexivity].
Qed.

Lemma re_sub_old_form (r : rule) (g rest : text) :
  starts_with (r_excl r) (r_close r) = true ->
  valid_group r g = true ->
  re_sub r (old_form r g ++ rest) = new_form r g ++ re_sub r rest.
Proof.
  intros Hc Hg. apply re_sub_match. now apply match_at_intro.
Qed.

Lemma re_sub_cases (r : rule) (t : text) :
  starts_with (r_excl r) (r_close r) = true ->
  (t = [] /\ re_sub r t = []) \/
  (exists a t', t = a :: t' /\ match_at r t = None /\
                re_sub r t = a :: re_sub r t') \/
  (exists g t', t = old_form r g ++ t' /\ valid_group r g = true /\
                re_sub r t = new_form r g ++ re_sub r t').
Proof.
  intros Hc. destruct (match_at r t) as [[g rest]|] eqn:E.
  - right; right. exists g, rest.
    pose proof (re_sub_match _ _ _ _ E) as Hs.
    apply match_at_inv in E as [Hg Ht]; auto.
  - destruct t as [|a t]; [left; split; [reflexivity|apply re_sub_nil]|].
    right; left. exists a, t. repeat split; auto using re_sub_skip.
Qed.

(** ** A substitution does not create matches of another rule *)

Section Preserve.

Variables r r' : rule.

Hypothesis Hwf : starts_with (r_excl r) (r_close r) = true.
Hypothesis Hwf' : starts_with (r_excl r') (r_close r') = true.
Hypothesis Hopen : clash_all (r_open r') (r_pre r) = true.
Hypothesis Htail : clash_all (tl (r_close r')) (r_pre r) = true.
Hypothesis Hhead : starts_other (r_excl r') (r_open r) = true.
Hypothesis Hhead' : starts_other (r_excl r') (r_pre r) = true.

(** At an occurrence of [r]: if the closing literal of [r'] does not
    follow the run in the old form, it does not in the new form. *)
Hypothesis Hrun : forall g t u, valid_group r g = true ->
  close_after_run (r_excl r') (r_close r') (old_form r g ++ t) = None ->
  close_after_run (r_excl r') (r_close r') (new_form r g ++ u) = None.

Lemma clash_all_cons (x : char) (p w : text) :
  clash_all (x :: p) w = clash (x :: p) w && clash_all p w.
Proof. reflexivity. Qed.

Lemma literal_transfer {T : Type} (F : text -> option T) (p : text) :
  clash_all p (r_pre r) = true ->
  (forall t, F t = None -> F (re_sub r t) = None) ->
  forall t, after p F t = None -> after p F (re_sub r t) = None.
Proof.
  intros Hp HF. induction p as [|x p IH]; intros t H.
  - unfold after in *. simpl in *. auto.
  - rewrite clash_all_cons in Hp. apply andb_true_iff in Hp as [Hx Hp].
    destruct (re_sub_cases r t Hwf) as [[-> ->]|[(a & t' & -> & _ & ->)|(g & t' & -> & _ & ->)]].
    + reflexivity.
    + unfold after in *. simpl in *. destruct (N.eqb x a); [|reflexivity].
      apply (IH Hp t' H).
    + unfold after, new_form, expand. rewrite <- app_assoc.
      now rewrite (clash_strip _ _ _ Hx).
Qed.

Lemma close_tail_transfer (t : text) :
  strip_prefix (tl (r_close r')) t = None ->
  strip_prefix (tl (r_close r')) (re_sub r t) = None.
Proof.
  intros H.
  pose proof (literal_transfer (@Some text) (tl (r_close r')) Htail) as LT.
  unfold after in LT.
  assert (HF : forall t0 : text, Some t0 = None -> Some (re_sub r t0) = None)
    by (intros; discriminate).
  specialize (LT HF t). rewrite H in LT.
  specialize (LT eq_refl).
  destruct (strip_prefix (tl (r_close r')) (re_sub r t)); [discriminate|reflexivity].
Qed.

Lemma run_transfer (t : text) :
  close_after_run (r_excl r') (r_close r') t = None ->
  close_after_run (r_excl r') (r_close r') (re_sub r t) = None.
Proof.
  revert t.
  apply (re_sub_ind r (fun t u =>
    close_after_run (r_excl r') (r_close r') t = None ->
    close_after_run (r_excl r') (r_close r') u = None)); auto.
  - intros a t _ IH H. unfold close_after_run in *. cbn [skip_run] in *.
    destruct (N.eqb a (r_excl r')) eqn:Ea; [|auto].
    destruct (starts_with_inv _ _ Hwf') as (l & Hl).
    pose proof close_tail_transfer as CT. rewrite Hl in *. simpl in *.
    destruct (N.eqb (r_excl r') a); [auto|reflexivity].
  - intros g t Hg _ H. now apply (Hrun g t).
Qed.

Lemma skip_run_other (c : char) (s : text) :
  starts_other c s = true -> exists a s', s = a :: s' /\ N.eqb a c = false.
Proof.
  destruct s as [|a s]; simpl; [discriminate|].
  intros H. apply negb_true_iff in H. now exists a, s.
Qed.

Lemma plus_transfer (t : text) :
  match_plus (r_excl r') (r_close r') t = None ->
  match_plus (r_excl r') (r_close r') (re_sub r t) = None.
Proof.
  intros H. destruct (starts_with_inv _ _ Hwf') as (l & Hl).
  destruct (re_sub_cases r t Hwf) as [[-> ->]|[(a & t' & -> & _ & ->)|(g & t' & -> & Hg & ->)]].
  - reflexivity.
  - destruct (N.eqb a (r_excl r')) eqn:Ea.
    + cbn [match_plus]. now rewrite Ea.
    + rewrite Hl in H. apply match_plus_none_skip in H; [|assumption].
      rewrite <- Hl in H. apply run_transfer in H.
      rewrite Hl. apply match_plus_skip_none. cbn [skip_run]. rewrite Ea.
      rewrite <- Hl. exact H.
  - destruct (skip_run_other _ _ Hhead) as (h & o' & Ho & Eh).
    destruct (skip_run_other _ _ Hhead') as (h' & p' & Hp & Eh').
    assert (Hold : close_after_run (r_excl r') (r_close r') (old_form r g ++ t') = None).
    { unfold close_after_run, old_form in *. rewrite Ho in *. simpl in *.
      rewrite Eh. rewrite Hl in *. now apply (match_plus_none_skip _ h). }
    apply (Hrun g t' (re_sub r t') Hg) in Hold.
    rewrite Hl. apply match_plus_skip_none. rewrite <- Hl. exact Hold.
Qed.

Lemma match_at_transfer (t : text) :
  match_at r' t = None -> match_at r' (re_sub r t) = None.
Proof.
  apply (literal_transfer (match_plus (r_excl r') (r_close r')) (r_open r') Hopen).
  exact plus_transfer.
Qed.

Hypothesis Hpre : forallb (clash (r_open r')) (tails1 (r_pre r)) = true.
Hypothesis Hpost : forallb (clash (r_open r')) (tails1 (r_post r)) = true.

(** Inside the group of an occurrence of [r]: no match of [r'] in the old
    form, none in the new form. *)
Hypothesis Hgroup : forall g gs t u, valid_group r g = true ->
  In gs (tails1 g) ->
  (close_after_run (r_excl r') (r_close r') t = None ->
   close_after_run (r_excl r') (r_close r') u = None) ->
  match_at r' (gs ++ r_close r ++ t) = None ->
  match_at r' (gs ++ r_post r ++ u) = None.

Theorem no_match_preserved (t : text) :
  any_match r' t = false -> any_match r' (re_sub r t) = false.
Proof.
  revert t.
  apply (re_sub_ind r (fun t u =>
    any_match r' t = false -> any_match r' u = false)); auto.
  - intros a t Hm IH H. apply any_match_cons in H as [H1 H2].
    pose proof (match_at_transfer _ H1) as H3.
    rewrite re_sub_skip in H3 by assumption.
    cbn [any_match]. rewrite H3. auto.
  - intros g t Hg IH H.
    unfold old_form in H. rewrite <- !app_assoc in H.
    apply any_match_app_false in H.
    unfold new_form, expand. rewrite <- !app_assoc.
    rewrite any_match_scan_clash by assumption.
    rewrite any_match_scan.
    + rewrite any_match_scan_clash by assumption.
      apply IH. now do 2 apply any_match_app_false in H.
    + intros gs Hgs. apply (Hgroup g gs t (re_sub r t) Hg Hgs (run_transfer t)).
      now apply (any_match_unscan r' g).
Qed.

End Preserve.

(** ** The three ways two rules keep apart *)

Lemma free_rev (c : char) (l : text) : free c (rev l) = free c l.
Proof.
  induction l as [|a l IH]; [reflexivity|].
  simpl rev. rewrite free_app, IH, free_cons. simpl. rewrite andb_true_r.
  apply andb_comm.
Qed.

Lemma ends_sep_inv (c : char) (s : text) :
  ends_sep c s = true -> exists L, s = L ++ [c] /\ free c L = true.
Proof.
  unfold ends_sep. destruct (rev s) as [|a l] eqn:E; [discriminate|].
  intros H. apply andb_true_iff in H as [Ha Hl]. apply N.eqb_eq in Ha. subst a.
  exists (rev l). split.
  - rewrite <- (rev_involutive s), E. reflexivity.
  - now rewrite free_rev.
Qed.

Lemma free_tail (c : char) (g gs : text) :
  free c g = true -> In gs (tails1 g) -> free c gs = true.
Proof.
  intros Hg Hin. apply tails1_split in Hin as (x & -> & _).
  rewrite free_app in Hg. now apply andb_true_iff in Hg as [_ Hg].
Qed.

Lemma skip_run_found (c : char) (s : text) :
  free c s = false -> exists s', skip_run c s = c :: s'.
Proof.
  induction s as [|a s IH]; [discriminate|].
  rewrite free_cons. simpl. destruct (N.eqb_spec a c) as [->|]; simpl.
  - intros _. now exists s.
  - exact IH.
Qed.

Lemma close_after_run_found (c : char) (s X : text) :
  free c s = false -> close_after_run c [c] (s ++ X) <> None.
Proof.
  intros H. unfold close_after_run. rewrite skip_run_app by assumption.
  destruct (skip_run_found c s H) as (s' & ->). simpl. now rewrite N.eqb_refl.
Qed.

(** A literal of at most one character looks at the head only. *)
Lemma strip_short_head (l g X Y : text) :
  length l <= 1 -> g <> [] ->
  strip_prefix l (g ++ X) = None -> strip_prefix l (g ++ Y) = None.
Proof.
  intros Hl Hg. destruct g as [|a g]; [congruence|].
  destruct l as [|y [|z l]]; simpl in *; try lia; try discriminate.
  destruct (N.eqb y a); [discriminate|reflexivity].
Qed.

Section SameClass.

Variables r r' : rule.
Hypothesis Hwf' : starts_with (r_excl r') (r_close r') = true.
Hypothesis Hsame : same_class r r' = true.

Lemma same_class_inv :
  r_excl r = r_excl r' /\
  (exists L, r_open r = L ++ [r_excl r'] /\ free (r_excl r') L = true) /\
  (exists P, r_pre r = P ++ [r_excl r'] /\ free (r_excl r') P = true) /\
  (exists L', r_open r' = L' ++ [r_excl r'] /\ free (r_excl r') L' = true) /\
  length (tl (r_close r')) <= 1 /\
  (exists x, r_close r = [r_excl r'; x] /\ N.eqb x (r_excl r') = false) /\
  (exists post', r_post r = r_excl r' :: post' /\
     (free (r_excl r') post' = true \/
      clash (r_close r') (skip_run (r_excl r') post') = true)).
Proof.
  unfold same_class in Hsame.
  repeat (apply andb_true_iff in Hsame as [Hsame ?]).
  apply N.eqb_eq in Hsame.
  repeat split; auto using ends_sep_inv.
  - now apply Nat.leb_le.
  - destruct (r_close r) as [|a [|x [|y l]]]; try discriminate.
    apply andb_true_iff in H1 as [Ha Hx]. apply N.eqb_eq in Ha. subst a.
    exists x. split; [reflexivity|now apply negb_true_iff].
  - apply starts_with_inv in H0 as (post' & E). exists post'. split; [exact E|].
    rewrite E in H. simpl in H. now apply orb_true_iff in H.
Qed.

Lemma same_class_run (g t u : text) :
  valid_group r g = true ->
  close_after_run (r_excl r') (r_close r') (old_form r g ++ t) = None ->
  close_after_run (r_excl r') (r_close r') (new_form r g ++ u) = None.
Proof.
  destruct same_class_inv as (Ec & (L & EL & HL) & (P & EP & HP) & _ & Hlen & _ & _).
  destruct (starts_with_inv _ _ Hwf') as (l & El). rewrite El in Hlen. simpl in Hlen.
  intros Hg. apply valid_group_inv in Hg as [Hne _].
  unfold close_after_run, old_form, new_form, expand.
  rewrite EL, EP, <- !app_assoc. simpl.
  rewrite !skip_run_hit by assumption.
  rewrite El. simpl. rewrite N.eqb_refl.
  now apply strip_short_head.
Qed.

Lemma same_class_group (g gs t u : text) :
  valid_group r g = true ->
  In gs (tails1 g) ->
  (close_after_run (r_excl r') (r_close r') t = None ->
   close_after_run (r_excl r') (r_close r') u = None) ->
  match_at r' (gs ++ r_close r ++ t) = None ->
  match_at r' (gs ++ r_post r ++ u) = None.
Proof.
  destruct same_class_inv as
    (Ec & _ & _ & (L' & EL' & HL') & _ & (x & Ex & Hx) & (post' & Epost & Hpost)).
  destruct (starts_with_inv _ _ Hwf') as (l & El).
  intros Hg Hgs Htu Hold.
  apply valid_group_inv in Hg as [_ Hf]. rewrite Ec in Hf.
  pose proof (free_tail _ _ _ Hf Hgs) as Hfs.
  unfold match_at in *. rewrite EL', Epost, Ex in *. simpl in *.
  destruct (strip_prefix (L' ++ [r_excl r']) (gs ++ r_excl r' :: post' ++ u))
    as [s1|] eqn:E; [|reflexivity].
  apply strip_prefix_sep in E as [-> ->]; [|assumption..].
  change (L' ++ r_excl r' :: x :: t) with (L' ++ [r_excl r'] ++ x :: t) in Hold.
  rewrite app_assoc, strip_prefix_app in Hold.
  rewrite El in *. apply match_plus_skip_none.
  destruct Hpost as [Hp|Hp].
  - rewrite skip_run_free by assumption. apply Htu.
    now apply (match_plus_none_skip _ x).
  - assert (Hnf : free (r_excl r') post' = false).
    { destruct (free (r_excl r') post') eqn:F; [|reflexivity].
      destruct (skip_run_split (r_excl r') post') as (g0 & Hg0 & E0).
      pose proof (skip_run_free (r_excl r') post' [] F) as E1.
      rewrite app_nil_r in E1. rewrite E1 in Hp. simpl in Hp.
      destruct l; discriminate. }
    rewrite skip_run_app by assumption. now apply clash_strip.
Qed.

End SameClass.

Section ClosedOut.

Variables r r' : rule.
Hypothesis Hout : closed_out r r' = true.

Lemma closed_out_inv :
  r_close r' = [r_excl r'; r_excl r] /\
  (exists x post', r_post r = x :: post' /\ free x (r_open r') = true /\
                   N.eqb x (r_excl r) = false) /\
  free (r_excl r') (r_pre r) = false /\
  clash (r_close r') (skip_run (r_excl r') (r_pre r)) = true /\
  free (r_excl r') (r_post r) = false /\
  clash (r_close r') (skip_run (r_excl r') (r_post r)) = true.
Proof.
  unfold closed_out in Hout.
  repeat (apply andb_true_iff in Hout as [Hout ?]).
  repeat split; auto using negb_true_iff.
  - destruct (r_close r') as [|a [|b [|y l]]]; try discriminate.
    apply andb_true_iff in Hout as [Ha Hb].
    apply N.eqb_eq in Ha, Hb. now subst.
  - destruct (r_post r) as [|x post']; [discriminate|].
    apply andb_true_iff in H3 as [Hx Hx']. exists x, post'.
    repeat split; auto. now apply negb_true_iff.
  - now apply negb_true_iff.
  - now apply negb_true_iff.
Qed.

Lemma closed_out_run (g t u : text) :
  valid_group r g = true ->
  close_after_run (r_excl r') (r_close r') (old_form r g ++ t) = None ->
  close_after_run (r_excl r') (r_close r') (new_form r g ++ u) = None.
Proof.
  destruct closed_out_inv as (_ & _ & Hf & Hc & _ & _).
  intros _ _. unfold close_after_run, new_form, expand.
  rewrite <- app_assoc, skip_run_app by assumption.
  now apply clash_strip.
Qed.

(** After a piece of a group of [r], the closing literal of [r'] never
    follows the run. *)
Lemma closed_out_tail (w u : text) :
  free (r_excl r) w = true ->
  close_after_run (r_excl r') (r_close r') (w ++ r_post r ++ u) = None.
Proof.
  destruct closed_out_inv as (Ec & (x & post' & Ep & _ & Hx) & _ & _ & Hf & Hc).
  unfold close_after_run. induction w as [|a w IH]; intros Hw.
  - simpl. rewrite skip_run_app by assumption. now apply clash_strip.
  - rewrite free_cons in Hw. apply andb_true_iff in Hw as [Ha Hw].
    simpl. destruct (N.eqb a (r_excl r')) eqn:Ea; [|auto].
    rewrite Ec. simpl. rewrite N.eqb_sym, Ea.
    destruct w as [|b w]; simpl.
    + rewrite Ep. simpl. rewrite N.eqb_sym, Hx. reflexivity.
    + rewrite free_cons in Hw. apply andb_true_iff in Hw as [Hb _].
      apply negb_true_iff in Hb. rewrite N.eqb_sym, Hb. reflexivity.
Qed.

Lemma closed_out_group (g gs t u : text) :
  valid_group r g = true ->
  In gs (tails1 g) ->
  (close_after_run (r_excl r') (r_close r') t = None ->
   close_after_run (r_excl r') (r_close r') u = None) ->
  match_at r' (gs ++ r_close r ++ t) = None ->
  match_at r' (gs ++ r_post r ++ u) = None.
Proof.
  destruct closed_out_inv as (Ec & (x & post' & Ep & Hx & _) & _).
  intros Hg Hgs _ _. apply valid_group_inv in Hg as [_ Hf].
  pose proof (free_tail _ _ _ Hf Hgs) as Hfs.
  unfold match_at.
  destruct (strip_prefix (r_open r') (gs ++ r_post r ++ u)) as [s1|] eqn:E;
    [|reflexivity].
  rewrite Ep in E. simpl in E.
  apply strip_prefix_within in E as (w' & -> & ->); [|assumption].
  rewrite free_app in Hfs. apply andb_true_iff in Hfs as [_ Hw'].
  rewrite Ec. apply match_plus_skip_none. rewrite <- Ec.
  change (x :: post' ++ u) with ((x :: post') ++ u). rewrite <- Ep.
  now apply closed_out_tail.
Qed.

End ClosedOut.

Section ClosedIn.

Variables r r' : rule.
Hypothesis Hin : closed_in r r' = true.

Lemma closed_in_inv :
  r_close r' = [r_excl r'] /\
  exists x lr post', r_close r = x :: lr /\ r_post r = x :: post' /\
    free x (r_open r') = true /\ N.eqb x (r_excl r') = false /\
    free (r_excl r') lr = false.
Proof.
  unfold closed_in in Hin. apply andb_true_iff in Hin as [H1 H2].
  split.
  - destruct (r_close r') as [|a [|b l]]; try discriminate.
    apply N.eqb_eq in H1. now subst.
  - destruct (r_close r) as [|x lr]; [discriminate|].
    destruct (r_post r) as [|y post']; [discriminate|].
    repeat (apply andb_true_iff in H2 as [H2 ?]).
    apply N.eqb_eq in H2. subst y. exists x, lr, post'.
    repeat split; auto using negb_true_iff.
    + now apply negb_true_iff.
    + now apply negb_true_iff.
Qed.

Lemma closed_in_run (g t u : text) :
  valid_group r g = true ->
  close_after_run (r_excl r') (r_close r') (old_form r g ++ t) = None ->
  close_after_run (r_excl r') (r_close r') (new_form r g ++ u) = None.
Proof.
  destruct closed_in_inv as (Ec & x & lr & post' & Ex & _ & _ & _ & Hlr).
  intros _ H. exfalso. rewrite Ec in H. revert H.
  apply close_after_run_found. unfold old_form.
  rewrite !free_app, Ex, free_cons, Hlr. now rewrite !andb_false_r.
Qed.

Lemma closed_in_group (g gs t u : text) :
  valid_group r g = true ->
  In gs (tails1 g) ->
  (close_after_run (r_excl r') (r_close r') t = None ->
   close_after_run (r_excl r') (r_close r') u = None) ->
  match_at r' (gs ++ r_close r ++ t) = None ->
  match_at r' (gs ++ r_post r ++ u) = None.
Proof.
  destruct closed_in_inv as (Ec & x & lr & post' & Ex & Ep & Hx & Hxc & Hlr).
  intros _ _ _ Hold. unfold match_at in *.
  destruct (strip_prefix (r_open r') (gs ++ r_post r ++ u)) as [s1|] eqn:E;
    [|reflexivity].
  rewrite Ep in E. simpl in E.
  apply strip_prefix_within in E as (z & -> & ->); [|assumption].
  rewrite <- app_assoc, strip_prefix_app, Ex, Ec in Hold.
  rewrite Ec.
  assert (Hnf : forall w, free (r_excl r') (w ++ (x :: lr) ++ t) = false).
  { intros w. rewrite !free_app, free_cons, Hlr. now rewrite !andb_false_r. }
  destruct z as [|a z].
  - simpl in Hold. apply match_plus_none_skip in Hold; [|assumption].
    exfalso. revert Hold. apply (close_after_run_found _ lr t Hlr).
  - change ((a :: z) ++ (x :: lr) ++ t) with (a :: (z ++ x :: lr ++ t)) in Hold.
    destruct (N.eqb a (r_excl r')) eqn:Ea;
      [cbn [app match_plus]; now rewrite Ea|].
    exfalso. apply match_plus_none_skip in Hold; [|assumption].
    revert Hold.
    change (z ++ x :: lr ++ t) with (z ++ (x :: lr) ++ t).
    rewrite app_assoc. apply close_after_run_found.
    rewrite free_app, free_cons, Hlr. now rewrite !andb_false_r.
Qed.

End ClosedIn.

(** Compatible rules: the substitution of one leaves a text without a match
    of the other without a match of the other. *)
Theorem preserve (r r' : rule) (t : text) :
  compatible r r' = true ->
  any_match r' t = false -> any_match r' (re_sub r t) = false.
Proof.
  unfold compatible, common_ok. intros H.
  apply andb_true_iff in H as [H Hclass].
  repeat (apply andb_true_iff in H as [H ?]).
  apply no_match_preserved; auto.
  - intros g t0 u.
    apply orb_true_iff in Hclass as [Hclass|Hclass];
      [apply orb_true_iff in Hclass as [Hclass|Hclass]|].
    + now apply same_class_run.
    + now apply closed_out_run.
    + now apply closed_in_run.
  - intros g gs t0 u.
    apply orb_true_iff in Hclass as [Hclass|Hclass];
      [apply orb_true_iff in Hclass as [Hclass|Hclass]|].
    + now apply same_class_group.
    + now apply closed_out_group.
    + now apply closed_in_group.
Qed.

(** ** The seven rules, pairwise *)

Lemma text_eqb_eq (s t : text) : text_eqb s t = true <-> s = t.
Proof.
  revert t; induction s as [|a s IH]; intros [|b t]; simpl; split;
    try discriminate; try reflexivity.
  - intros H. apply andb_true_iff in H as [H1 H2].
    apply N.eqb_eq in H1. apply IH in H2. now subst.
  - intros H. inversion H; subst. rewrite N.eqb_refl. simpl. now apply IH.
Qed.

Lemma rule_eqb_eq (r r' : rule) : rule_eqb r r' = true <-> r = r'.
Proof.
  destruct r, r'. unfold rule_eqb; simpl. split.
  - intros H. repeat (apply andb_true_iff in H as [H ?]).
    apply text_eqb_eq in H, H0, H1, H2. apply N.eqb_eq in H3. now subst.
  - intros H. inversion H; subst.
    rewrite N.eqb_refl.
    now rewrite !(proj2 (text_eqb_eq _ _) eq_refl).
Qed.

Lemma rules_compatible (r r' : rule) :
  In r rules -> In r' rules -> r <> r' -> compatible r r' = true.
Proof.
  intros Hr Hr' Hne.
  assert (H : forallb (fun a => forallb (fun b => rule_eqb a b || compatible a b) rules) rules = true)
    by (vm_compute; reflexivity).
  rewrite forallb_forall in H. specialize (H r Hr).
  rewrite forallb_forall in H. specialize (H r' Hr').
  apply orb_true_iff in H as [H|H]; [|exact H].
  apply rule_eqb_eq in H. contradiction.
Qed.

Lemma rules_wf (r : rule) :
  In r rules -> starts_with (r_excl r) (r_close r) = true.
Proof.
  intros Hr.
  assert (H : forallb (fun a => starts_with (r_excl a) (r_close a)) rules = true)
    by (vm_compute; reflexivity).
  rewrite forallb_forall in H. auto.
Qed.

Lemma others_silent_inv (r r' : rule) (t : text) :
  others_silent r t = true -> In r' rules -> r' <> r -> any_match r' t = false.
Proof.
  unfold others_silent. rewrite forallb_forall. intros H Hr' Hne.
  specialize (H r' Hr'). apply orb_true_iff in H as [H|H].
  - apply rule_eqb_eq in H. contradiction.
  - now apply negb_true_iff.
Qed.

Lemma all_silent_inv (r : rule) (t : text) :
  all_silent t = true -> In r rules -> any_match r t = false.
Proof.
  unfold all_silent. rewrite forallb_forall. intros H Hr.
  apply negb_true_iff. auto.
Qed.

(** ** Several substitutions in a row *)

Lemma apply_rules_app (a b : list rule) (s : text) :
  apply_rules (a ++ b) s = apply_rules b (apply_rules a s).
Proof. unfold apply_rules. apply fold_left_app. Qed.

Lemma apply_rules_silent (rs : list rule) (s : text) :
  (forall r, In r rs -> any_match r s = false) -> apply_rules rs s = s.
Proof.
  induction rs as [|r rs IH]; intros H; [reflexivity|].
  change (apply_rules (r :: rs) s) with (apply_rules rs (re_sub r s)).
  rewrite re_sub_no_match by (apply H; simpl; auto).
  apply IH. intros r' Hr'. apply H. simpl; auto.
Qed.

(** Rules applied in any order to a text where only [r] has occurrences:
    only the substitution of [r] changes the text. *)
Lemma apply_rules_one (p : list rule) (r : rule) (t : text) :
  NoDup p -> (forall r', In r' p -> In r' rules) -> In r p ->
  others_silent r t = true ->
  apply_rules p t = re_sub r t.
Proof.
  intros Hnd Hsub Hr Hs.
  destruct (in_split _ _ Hr) as (a & b & ->).
  apply NoDup_remove_2 in Hnd.
  rewrite apply_rules_app.
  rewrite (apply_rules_silent a t).
  - change (apply_rules (r :: b) t) with (apply_rules b (re_sub r t)).
    apply apply_rules_silent. intros r' Hr'.
    assert (Hne : r' <> r).
    { intros ->. apply Hnd. apply in_or_app. now right. }
    assert (Hin : In r' rules).
    { apply Hsub, in_or_app. right. now right. }
    apply preserve.
    + apply rules_compatible; auto.
    + now apply (others_silent_inv r).
  - intros r' Hr'.
    assert (Hne : r' <> r).
    { intros ->. apply Hnd. apply in_or_app. now left. }
    apply (others_silent_inv r); auto. apply Hsub, in_or_app. now left.
Qed.

Lemma rules_NoDup : NoDup rules.
Proof.
  assert (H : forall a b : rule, rule_eqb a b = false -> a <> b).
  { intros a b E ->. now rewrite (proj2 (rule_eqb_eq b b) eq_refl) in E. }
  unfold rules.
  repeat (apply NoDup_cons;
          [simpl; intros D;
           repeat (destruct D as [D|D];
                   [revert D; apply H; vm_compute; reflexivity|]);
           exact D|]).
  apply NoDup_nil.
Qed.

Lemma transform_one (r : rule) (t : text) :
  In r rules -> others_silent r t = true -> transform t = re_sub r t.
Proof.
  intros Hr Hs. apply apply_rules_one; auto using rules_NoDup.
Qed.

Lemma transform_silent (t : text) :
  all_silent t = true -> transform t = t.
Proof.
  intros H. apply apply_rules_silent. intros r Hr. now apply all_silent_inv.
Qed.

(** ** Counting occurrences *)

Lemma count_matches_zero (r : rule) (s : text) :
  count_matches r s = 0 -> any_match r s = false.
Proof.
  induction s as [|a s IH]; cbn [count_matches any_match];
    destruct (match_at r _); simpl; intros H; try discriminate; auto.
Qed.

Lemma count_matches_app (r : rule) (w X : text) :
  count_matches r X <= count_matches r (w ++ X).
Proof.
  induction w as [|a w IH]; [reflexivity|].
  change ((a :: w) ++ X) with (a :: (w ++ X)).
  cbn [count_matches]. lia.
Qed.

Lemma count_matches_app_eq (r : rule) (w X y : text) :
  count_matches r (w ++ X) = count_matches r X ->
  In y (tails1 w) -> match_at r (y ++ X) = None.
Proof.
  induction w as [|a w IH]; simpl tails1; intros H Hy; [destruct Hy|].
  change ((a :: w) ++ X) with (a :: (w ++ X)) in H.
  cbn [count_matches] in H.
  pose proof (count_matches_app r w X) as Hle.
  destruct Hy as [<-|Hy].
  - change ((a :: w) ++ X) with (a :: (w ++ X)).
    destruct (match_at r (a :: w ++ X)); [simpl in H; lia|reflexivity].
  - apply IH; [|assumption].
    destruct (match_at r (a :: w ++ X)); simpl in H; lia.
Qed.

Lemma re_sub_skip_app (r : rule) (w X : text) :
  (forall y, In y (tails1 w) -> match_at r (y ++ X) = None) ->
  re_sub r (w ++ X) = w ++ re_sub r X.
Proof.
  induction w as [|a w IH]; intros H; [reflexivity|].
  change ((a :: w) ++ X) with (a :: (w ++ X)).
  rewrite re_sub_skip by (apply (H (a :: w)); simpl; auto).
  simpl. f_equal. apply IH. intros y Hy. apply H. simpl; auto.
Qed.

Lemma old_form_cons (r : rule) (g : text) :
  valid_group r g = true -> exists a w, old_form r g = a :: w.
Proof.
  intros Hg. apply valid_group_inv in Hg as [Hne _].
  destruct (old_form r g) as [|a w] eqn:E; [|now exists a, w].
  unfold old_form in E. apply app_eq_nil in E as [_ E].
  apply app_eq_nil in E as [E _]. contradiction.
Qed.

Lemma count_matches_old_form (r : rule) (g t : text) :
  starts_with (r_excl r) (r_close r) = true ->
  valid_group r g = true ->
  S (count_matches r t) <= count_matches r (old_form r g ++ t).
Proof.
  intros Hc Hg. pose proof (match_at_intro r g t Hc Hg) as Hm.
  destruct (old_form_cons r g Hg) as (a & w & E). rewrite E in *.
  change ((a :: w) ++ t) with (a :: (w ++ t)) in *.
  cbn [count_matches]. rewrite Hm.
  pose proof (count_matches_app r w t). simpl. lia.
Qed.

Lemma count_matches_assemble (r : rule) (occs : list (text * text)) (tail : text) :
  starts_with (r_excl r) (r_close r) = true ->
  valid_occs r occs = true ->
  length occs <= count_matches r (assemble (old_form r) occs tail).
Proof.
  intros Hc. induction occs as [|[sep g] occs IH]; intros Hv; simpl; [lia|].
  simpl in Hv. apply andb_true_iff in Hv as [Hg Hv].
  pose proof (count_matches_app r sep (old_form r g ++ assemble (old_form r) occs tail)).
  pose proof (count_matches_old_form r g (assemble (old_form r) occs tail) Hc Hg).
  specialize (IH Hv). lia.
Qed.

(** A text with exactly the listed occurrences of [r]: one substitution
    rewrites each of them, in order, and copies everything else. *)
Lemma re_sub_assemble (r : rule) (occs : list (text * text)) (tail : text) :
  starts_with (r_excl r) (r_close r) = true ->
  valid_occs r occs = true ->
  count_matches r (assemble (old_form r) occs tail) = length occs ->
  re_sub r (assemble (old_form r) occs tail) = assemble (new_form r) occs tail.
Proof.
  intros Hc. induction occs as [|[sep g] occs IH]; intros Hv Hn; simpl in *.
  - apply re_sub_no_match. now apply count_matches_zero.
  - apply andb_true_iff in Hv as [Hg Hv].
    set (t1 := assemble (old_form r) occs tail) in *.
    pose proof (count_matches_app r sep (old_form r g ++ t1)) as H1.
    pose proof (count_matches_old_form r g t1 Hc Hg) as H2.
    pose proof (count_matches_assemble r occs tail Hc Hv) as H3. fold t1 in H3.
    rewrite re_sub_skip_app.
    + rewrite re_sub_old_form by assumption.
      rewrite IH; [reflexivity|assumption|lia].
    + intros y Hy. apply (count_matches_app_eq r sep); [lia|assumption].
Qed.

(** ** Literal occurrences *)

Lemma is_prefix_app (p s : text) : is_prefix p (p ++ s) = true.
Proof. unfold is_prefix. now rewrite strip_prefix_app. Qed.

Lemma is_prefix_short (p t : text) :
  length t < length p -> is_prefix p t = false.
Proof.
  intros H. unfold is_prefix.
  destruct (strip_prefix p t) as [s|] eqn:E; [|reflexivity].
  apply strip_prefix_length in E. lia.
Qed.

Lemma count_occurrences_short (p t : text) :
  length t < length p -> count_occurrences p t = 0.
Proof.
  induction t as [|a t IH]; intros H; cbn [count_occurrences];
    rewrite is_prefix_short by assumption; [reflexivity|].
  simpl in H. rewrite IH by lia. reflexivity.
Qed.

Lemma count_occurrences_self (p : text) :
  p <> [] -> count_occurrences p p = 1.
Proof.
  destruct p as [|a p]; [congruence|]. intros _.
  cbn [count_occurrences].
  pose proof (is_prefix_app (a :: p) []) as H. rewrite app_nil_r in H.
  rewrite H, count_occurrences_short by (simpl; lia). reflexivity.
Qed.

Lemma occurs_app_r (p w s : text) : occurs p s = true -> occurs p (w ++ s) = true.
Proof.
  intros H. induction w as [|a w IH]; [exact H|].
  simpl. rewrite IH. apply orb_true_r.
Qed.

Lemma occurs_intro (p x z : text) : occurs p (x ++ p ++ z) = true.
Proof.
  apply occurs_app_r. destruct (p ++ z) eqn:E; simpl; rewrite <- E;
    now rewrite is_prefix_app.
Qed.

Lemma rules_field (r : rule) :
  In r rules ->
  exists X Z, r_pre r = X ++ field_open r /\ r_post r = field_close r ++ Z.
Proof.
  intros Hr.
  assert (H : forallb (fun a =>
            text_eqb (r_pre a)
              (firstn (length (r_pre a) - length (field_open a)) (r_pre a) ++ field_open a) &&
            text_eqb (r_post a)
              (field_close a ++ skipn (length (field_close a)) (r_post a))) rules = true)
    by (vm_compute; reflexivity).
  rewrite forallb_forall in H. specialize (H r Hr).
  apply andb_true_iff in H as [H1 H2]. apply text_eqb_eq in H1, H2. eauto.
Qed.

Lemma new_form_nonempty (r : rule) (g : text) :
  valid_group r g = true -> new_form r g <> [].
Proof.
  intros Hg E. apply valid_group_inv in Hg as [Hne _].
  unfold new_form, expand in E. apply app_eq_nil in E as [_ E].
  apply app_eq_nil in E as [E _]. contradiction.
Qed.

Lemma re_sub_single (r : rule) (g : text) :
  starts_with (r_excl r) (r_close r) = true ->
  valid_group r g = true ->
  re_sub r (old_form r g) = new_form r g.
Proof.
  intros Hc Hg. rewrite <- (app_nil_r (old_form r g)).
  rewrite re_sub_old_form, re_sub_nil by assumption. apply app_nil_r.
Qed.

(** * The properties of the specification *)

(** C6. A text in which none of the seven patterns occurs comes back from
    the transform unchanged, and so from each single substitution: zero
    matches is a result, not an error (a substitution is a total function
    to texts). *)
Theorem no_pattern_unchanged (t : text) :
  all_silent t = true ->
  transform t = t /\ forall r, In r rules -> re_sub r t = t.
Proof.
  intros H. split; [now apply transform_silent|].
  intros r Hr. apply re_sub_no_match. now apply all_silent_inv.
Qed.

Lemma no_pattern_unchanged_witness :
  all_silent (str "return Err(AppError::NotFound(id));") = true /\
  transform (str "return Err(AppError::NotFound(id));") =
    str "return Err(AppError::NotFound(id));".
Proof.
  split; [vm_compute; reflexivity|].
  refine (proj1 (no_pattern_unchanged (str "return Err(AppError::NotFound(id));") _)).
  vm_compute; reflexivity.
Defined.

(** The field that carries a captured text is in every text assembled
    from the new structures. *)
Lemma assemble_field (r : rule) (occs : list (text * text)) (tail : text) (o : text * text) :
  In r rules -> In o occs ->
  occurs (carried_field r (snd o))
         (assemble (fun g => r_pre r ++ g ++ r_post r) occs tail) = true.
Proof.
  intros Hr. destruct (rules_field r Hr) as (X & Z & EX & EZ).
  induction occs as [|[sep g] occs IH]; intros Ho; [destruct Ho|].
  cbn [assemble]. destruct Ho as [<-|Ho].
  - cbn [snd]. unfold carried_field. rewrite EX, EZ.
    replace (sep ++ ((X ++ field_open r) ++ g ++ field_close r ++ Z) ++
             assemble (fun g0 => (X ++ field_open r) ++ g0 ++ field_close r ++ Z) occs tail)
      with ((sep ++ X) ++ (field_open r ++ g ++ field_close r) ++
            (Z ++ assemble (fun g0 => (X ++ field_open r) ++ g0 ++ field_close r ++ Z) occs tail))
      by (rewrite <- !app_assoc; reflexivity).
    apply occurs_intro.
  - apply occurs_app_r, occurs_app_r. auto.
Qed.

(** C2. A text made of N occurrences of the old form of one rule, with any
    text between them, in which the pattern of that rule matches at these N
    places only and no pattern of another rule occurs: the transform
    writes, for each occurrence and in order, the head of the rule's
    template, the captured text and the rest of the template, and leaves
    every character outside the occurrences as it was; it is the one
    substitution of that rule, over the whole text; the field that carries
    the captured text of each occurrence is in the result. *)
Theorem all_occurrences_converted (r : rule) (occs : list (text * text)) (tail : text) :
  In r rules ->
  valid_occs r occs = true ->
  count_matches r (assemble (fun g => r_open r ++ g ++ r_close r) occs tail) = length occs ->
  others_silent r (assemble (fun g => r_open r ++ g ++ r_close r) occs tail) = true ->
  transform (assemble (fun g => r_open r ++ g ++ r_close r) occs tail) =
    assemble (fun g => r_pre r ++ g ++ r_post r) occs tail /\
  re_sub r (assemble (fun g => r_open r ++ g ++ r_close r) occs tail) =
    assemble (fun g => r_pre r ++ g ++ r_post r) occs tail /\
  Forall (fun o =>
    occurs (carried_field r (snd o))
           (transform (assemble (fun g => r_open r ++ g ++ r_close r) occs tail)) = true)
    occs.
Proof.
  intros Hr Hv Hn Hs.
  change (fun g => r_open r ++ g ++ r_close r) with (old_form r) in *.
  rewrite (transform_one r) by assumption.
  assert (E : re_sub r (assemble (old_form r) occs tail) =
              assemble (fun g => r_pre r ++ g ++ r_post r) occs tail)
    by (apply re_sub_assemble; auto using rules_wf).
  rewrite E. split; [reflexivity|]. split; [reflexivity|].
  apply Forall_forall. intros o Ho.
  apply assemble_field; assumption.
Qed.

Lemma all_occurrences_converted_witness :
  transform
    (str "a(AppError::Process(" ++ [dq] ++ str "x" ++ [dq] ++
     str ")); b(AppError::Process(" ++ [dq] ++ str "y z" ++ [dq] ++ str "));") =
  str "a(AppError::ProcessError {" ++ [nl] ++
  indent ++ str "message: " ++ [dq] ++ str "x" ++ [dq] ++ str ".to_string()," ++ [nl] ++
  indent ++ str "process_id: None," ++ [nl] ++
  indent ++ str "operation: " ++ [dq] ++ str "unknown" ++ [dq] ++ str ".to_string()," ++ [nl] ++
  outdent ++ str "}); b(AppError::ProcessError {" ++ [nl] ++
  indent ++ str "message: " ++ [dq] ++ str "y z" ++ [dq] ++ str ".to_string()," ++ [nl] ++
  indent ++ str "process_id: None," ++ [nl] ++
  indent ++ str "operation: " ++ [dq] ++ str "unknown" ++ [dq] ++ str ".to_string()," ++ [nl] ++
  outdent ++ str "});".
Proof.
  refine (proj1 (all_occurrences_converted rule_process
            [(str "a(", str "x"); (str "); b(", str "y z")] (str ");")
            _ _ _ _)).
  - simpl; auto.
  - vm_compute; reflexivity.
  - vm_compute; reflexivity.
  - vm_compute; reflexivity.
Defined.

(** C1 (amended). For each of the seven rules, the transform of an old-form
    call of that rule in which no pattern of another rule occurs is the new
    structure of that rule, once, with the captured text as it was inside
    the [message] field (the [server_id] field for ServerNotFound). *)
Theorem single_call_converted (r : rule) (g : text) :
  In r rules ->
  valid_group r g = true ->
  others_silent r (old_form r g) = true ->
  transform (old_form r g) = new_form r g /\
  count_occurrences (new_form r g) (transform (old_form r g)) = 1 /\
  occurs (carried_field r g) (transform (old_form r g)) = true.
Proof.
  intros Hr Hg Hs.
  rewrite (transform_one r), re_sub_single by auto using rules_wf.
  split; [reflexivity|]. split.
  - apply count_occurrences_self. now apply new_form_nonempty.
  - destruct (rules_field r Hr) as (X & Z & EX & EZ).
    unfold new_form, expand, carried_field. rewrite EX, EZ.
    rewrite <- !app_assoc.
    replace (field_open r ++ g ++ field_close r ++ Z)
      with ((field_open r ++ g ++ field_close r) ++ Z)
      by (now rewrite <- !app_assoc).
    apply occurs_intro.
Qed.

Lemma single_call_converted_witness :
  transform (str "AppError::Internal(" ++ [dq] ++ str "boom" ++ [dq] ++ str ")") =
  str "AppError::InternalError {" ++ [nl] ++
  indent ++ str "message: " ++ [dq] ++ str "boom" ++ [dq] ++ str ".to_string()," ++ [nl] ++
  indent ++ str "operation: " ++ [dq] ++ str "unknown" ++ [dq] ++ str ".to_string()," ++ [nl] ++
  outdent ++ str "}".
Proof.
  refine (proj1 (single_call_converted rule_internal (str "boom") _ _ _)).
  - simpl; auto 10.
  - vm_compute; reflexivity.
  - vm_compute; reflexivity.
Defined.

(** C1, as stated, fails: a FileSystem call whose literal is itself a
    ServerNotFound call is one occurrence of the FileSystem pattern, and the
    transform does not keep the literal: rule 4 rewrites it inside the
    message. *)
Lemma nested_literal_rewritten :
  let g := str "AppError::ServerNotFound(x)" in
  valid_group rule_file_system g = true /\
  count_matches rule_file_system (old_form rule_file_system g) = 1 /\
  transform (old_form rule_file_system g) <> new_form rule_file_system g /\
  occurs (carried_field rule_file_system g)
         (transform (old_form rule_file_system g)) = false.
Proof.
  repeat split; try (vm_compute; reflexivity).
  vm_compute. discriminate.
Qed.

(** ** The rules with a quoted argument *)

Lemma all_silent_intro (t : text) :
  (forall r, In r rules -> any_match r t = false) -> all_silent t = true.
Proof.
  intros H. unfold all_silent. apply forallb_forall. intros r Hr.
  now apply negb_true_iff, H.
Qed.

Lemma string_rules_in_rules (r : rule) : In r string_rules -> In r rules.
Proof. simpl. intuition. Qed.

Lemma rules_split (r : rule) :
  In r rules -> r = rule_server_not_found \/ In r string_rules.
Proof. simpl. intuition. Qed.

Lemma string_rules_shape (r : rule) :
  In r string_rules ->
  r_excl r = dq /\ r_close r = [dq; rparen] /\
  ends_sep dq (r_open r) = true.
Proof.
  intros Hr.
  assert (H : forallb (fun a => N.eqb (r_excl a) dq &&
                               text_eqb (r_close a) [dq; rparen] &&
                               ends_sep dq (r_open a)) string_rules = true)
    by (vm_compute; reflexivity).
  rewrite forallb_forall in H. specialize (H r Hr).
  repeat (apply andb_true_iff in H as [H ?]).
  apply N.eqb_eq in H. apply text_eqb_eq in H1. auto.
Qed.

(** ** The matches of one substitution *)

Lemma none_in_inv (r : rule) (w X : text) :
  none_in [r] w X = true ->
  forall y, In y (tails1 w) -> match_at r (y ++ X) = None.
Proof.
  induction w as [|a w IH]; intros H y Hy; [destruct Hy|].
  cbn [none_in none_at forallb] in H.
  apply andb_true_iff in H as [H1 H2]. rewrite andb_true_r in H1.
  destruct Hy as [<-|Hy]; [|now apply IH].
  destruct (match_at r ((a :: w) ++ X)); [discriminate|reflexivity].
Qed.

Lemma re_sub_leftmost (r : rule) (occs : list (text * text)) (tail : text) :
  starts_with (r_excl r) (r_close r) = true ->
  valid_occs r occs = true ->
  leftmost r occs tail = true ->
  re_sub r (assemble (old_form r) occs tail) = assemble (new_form r) occs tail.
Proof.
  intros Hc. induction occs as [|[sep g] occs IH]; intros Hv Hl.
  - cbn [assemble]. apply re_sub_no_match. now apply negb_true_iff.
  - cbn [assemble leftmost] in *. cbn [valid_occs forallb snd] in Hv.
    apply andb_true_iff in Hv as [Hg Hv]. apply andb_true_iff in Hl as [Hs Hl].
    rewrite re_sub_skip_app by (now apply none_in_inv).
    rewrite re_sub_old_form by assumption.
    now rewrite (IH Hv Hl).
Qed.

Lemma finditer_fuel_spec (r : rule) (n : nat) (t : text) :
  starts_with (r_excl r) (r_close r) = true ->
  length t < n ->
  t = assemble (old_form r) (fst (finditer_fuel n r t)) (snd (finditer_fuel n r t)) /\
  valid_occs r (fst (finditer_fuel n r t)) = true /\
  leftmost r (fst (finditer_fuel n r t)) (snd (finditer_fuel n r t)) = true.
Proof.
  intros Hc. revert t. induction n as [|n IH]; intros t Hn; [lia|].
  cbn [finditer_fuel].
  destruct (match_at r t) as [[g rest]|] eqn:E.
  - pose proof (match_at_length _ _ _ _ E) as Hlen.
    apply match_at_inv in E as [Hg ->]; [|assumption].
    destruct (IH rest ltac:(lia)) as (E1 & E2 & E3).
    destruct (finditer_fuel n r rest) as [occs tail]. cbn [fst snd] in *.
    cbn [assemble leftmost none_in valid_occs forallb snd].
    rewrite <- E1. fold (valid_occs r occs). rewrite Hg, E2, E3. auto.
  - destruct t as [|a t].
    { cbn [fst snd assemble leftmost valid_occs forallb].
      rewrite any_match_nil. auto. }
    destruct (IH t ltac:(simpl in Hn; lia)) as (E1 & E2 & E3).
    destruct (finditer_fuel n r t) as [[|[sep g] occs] tail]; cbn [fst snd] in *.
    + cbn [assemble leftmost] in *. subst tail.
      split; [reflexivity|]. split; [reflexivity|].
      cbn [any_match]. now rewrite E.
    + cbn [assemble] in E1. cbn [assemble].
      split; [change (a :: t = a :: (sep ++ old_form r g ++ assemble (old_form r) occs tail));
              now f_equal|].
      split; [exact E2|].
      cbn [leftmost none_in none_at forallb] in *.
      change ((a :: sep) ++ old_form r g ++ assemble (old_form r) occs tail)
        with (a :: (sep ++ old_form r g ++ assemble (old_form r) occs tail)).
      rewrite <- E1, E. exact E3.
Qed.

Lemma finditer_spec (r : rule) (t : text) :
  starts_with (r_excl r) (r_close r) = true ->
  t = assemble (old_form r) (fst (finditer r t)) (snd (finditer r t)) /\
  valid_occs r (fst (finditer r t)) = true /\
  leftmost r (fst (finditer r t)) (snd (finditer r t)) = true.
Proof. intros Hc. apply finditer_fuel_spec; [assumption|lia]. Qed.

(** C4 (amended). Rule 4 scans from the left: every occurrence of
    [AppError::ServerNotFound(<expr>)] that does not begin inside the
    argument of an occurrence before it, [<expr>] a non-empty text without
    a closing parenthesis, becomes the ServerError structure with
    [server_id: <expr>,] copied as it is and unquoted, the message
    [Server not found] and the operation [get], and the text between these
    occurrences stays as it is; at an occurrence the group of the match
    ends at the first closing parenthesis and the substitution writes the
    structure and goes on after that parenthesis, whatever follows; every
    text is cut in this way, into the occurrences [re.finditer] gives. *)
Theorem server_not_found_rule (occs : list (text * text)) (tail : text) :
  valid_occs rule_server_not_found occs = true ->
  leftmost rule_server_not_found occs tail = true ->
  re_sub rule_server_not_found
    (assemble (fun e => str "AppError::ServerNotFound(" ++ e ++ str ")") occs tail) =
  assemble (fun e =>
    str "AppError::ServerError {" ++ [nl] ++
    indent ++ str "message: " ++ [dq] ++ str "Server not found" ++ [dq] ++
      str ".to_string()," ++ [nl] ++
    indent ++ str "server_id: " ++ e ++ str "," ++ [nl] ++
    indent ++ str "operation: " ++ [dq] ++ str "get" ++ [dq] ++
      str ".to_string()," ++ [nl] ++
    outdent ++ str "}") occs tail /\
  Forall (fun o => forall rest,
    match_at rule_server_not_found
      (str "AppError::ServerNotFound(" ++ snd o ++ str ")" ++ rest) =
    Some (snd o, rest) /\
    re_sub rule_server_not_found
      (str "AppError::ServerNotFound(" ++ snd o ++ str ")" ++ rest) =
    new_form rule_server_not_found (snd o) ++ re_sub rule_server_not_found rest) occs /\
  forall t,
    t = assemble (fun e => str "AppError::ServerNotFound(" ++ e ++ str ")")
          (fst (finditer rule_server_not_found t)) (snd (finditer rule_server_not_found t)) /\
    valid_occs rule_server_not_found (fst (finditer rule_server_not_found t)) = true /\
    leftmost rule_server_not_found
      (fst (finditer rule_server_not_found t)) (snd (finditer rule_server_not_found t)) = true.
Proof.
  intros Hv Hl. split; [|split].
  - exact (re_sub_leftmost rule_server_not_found occs tail eq_refl Hv Hl).
  - apply Forall_forall. intros o Ho rest.
    unfold valid_occs in Hv. rewrite forallb_forall in Hv.
    pose proof (match_at_intro rule_server_not_found (snd o) rest eq_refl (Hv o Ho)) as H.
    unfold old_form in H. rewrite <- !app_assoc in H.
    split; [exact H|]. now apply re_sub_match.
  - intros t. exact (finditer_spec rule_server_not_found t eq_refl).
Qed.

Lemma server_not_found_rule_witness :
  re_sub rule_server_not_found
    (str "Err(AppError::ServerNotFound(id)); Err(AppError::ServerNotFound(f(x)));") =
  str "Err(AppError::ServerError {" ++ [nl] ++
  indent ++ str "message: " ++ [dq] ++ str "Server not found" ++ [dq] ++
    str ".to_string()," ++ [nl] ++
  indent ++ str "server_id: id," ++ [nl] ++
  indent ++ str "operation: " ++ [dq] ++ str "get" ++ [dq] ++ str ".to_string()," ++ [nl] ++
  outdent ++ str "}); Err(AppError::ServerError {" ++ [nl] ++
  indent ++ str "message: " ++ [dq] ++ str "Server not found" ++ [dq] ++
    str ".to_string()," ++ [nl] ++
  indent ++ str "server_id: f(x," ++ [nl] ++
  indent ++ str "operation: " ++ [dq] ++ str "get" ++ [dq] ++ str ".to_string()," ++ [nl] ++
  outdent ++ str "}));".
Proof.
  refine (proj1 (server_not_found_rule
            [(str "Err(", str "id"); (str "); Err(", str "f(x")] (str "));") _ _)).
  - vm_compute; reflexivity.
  - vm_compute; reflexivity.
Defined.

(** C4, as stated, fails: a ServerNotFound call inside the argument of
    another is an occurrence of the pattern, and the substitution does not
    replace it: the match of the outer call runs up to the first closing
    parenthesis and the scan goes on after it. *)
Lemma inner_occurrence_kept :
  let t := str "AppError::ServerNotFound(a AppError::ServerNotFound(b))" in
  match_at rule_server_not_found (str "AppError::ServerNotFound(b))") =
    Some (str "b", str ")") /\
  occurs (str "AppError::ServerNotFound(b))") t = true /\
  occurs (str "server_id: b,") (re_sub rule_server_not_found t) = false /\
  occurs (str "server_id: b,") (transform t) = false /\
  occurs (str "AppError::ServerNotFound(b") (transform t) = true.
Proof. repeat split; vm_compute; reflexivity. Qed.

Lemma text_neq (s t : text) : text_eqb s t = false -> s <> t.
Proof.
  intros E ->. now rewrite (proj2 (text_eqb_eq t t) eq_refl) in E.
Qed.

(** ** A rule and its own template *)

Lemma string_rules_same_class (r : rule) :
  In r string_rules -> same_class r r = true.
Proof.
  intros Hr.
  assert (H : forallb (fun a => same_class a a) string_rules = true)
    by (vm_compute; reflexivity).
  rewrite forallb_forall in H. auto.
Qed.

Lemma own_run (r : rule) (g t u : text) :
  In r rules -> valid_group r g = true ->
  close_after_run (r_excl r) (r_close r) (old_form r g ++ t) = None ->
  close_after_run (r_excl r) (r_close r) (new_form r g ++ u) = None.
Proof.
  intros Hr Hg. destruct (rules_split r Hr) as [->|Hs].
  - intros H. exfalso. revert H.
    change (r_close rule_server_not_found) with [r_excl rule_server_not_found].
    apply close_after_run_found. unfold old_form.
    rewrite !free_app. simpl. now rewrite !andb_false_r.
  - apply same_class_run; auto using rules_wf, string_rules_same_class.
Qed.

Lemma tails1_trans (w y z : text) :
  In y (tails1 w) -> In z (tails1 y) -> In z (tails1 w).
Proof.
  intros Hy Hz. apply tails1_split in Hy as (x & -> & _).
  apply tails1_split in Hz as (x' & -> & Hne).
  apply (tails1_in _ (x ++ x')); [now rewrite app_assoc|assumption].
Qed.

(** ** Escaped quotes *)

Lemma strip_prefix_same (a : char) (p s : text) :
  strip_prefix (a :: p) (a :: s) = strip_prefix p s.
Proof. simpl. now rewrite N.eqb_refl. Qed.

Lemma strip_prefix_one (x c : char) (s : text) :
  strip_prefix [x] (c :: s) = if N.eqb x c then Some s else None.
Proof. reflexivity. Qed.

Lemma other_tag_no_match (r r' : rule) (s : text) :
  In r string_rules -> In r' string_rules -> rule_eqb r' r = false ->
  match_at r' (r_open r ++ s) = None.
Proof.
  intros Hr Hr' E.
  assert (H : forallb (fun x => forallb (fun y =>
            rule_eqb y x || clash (r_open y) (r_open x)) string_rules) string_rules = true)
    by (vm_compute; reflexivity).
  rewrite forallb_forall in H. specialize (H r Hr).
  rewrite forallb_forall in H. specialize (H r' Hr').
  rewrite E in H. simpl in H.
  unfold match_at. now rewrite clash_strip.
Qed.

(** ** The driver *)

Lemma path_exists_write (fs : filesystem) (p q : path) (c : text) :
  path_exists fs p = true ->
  path_exists (write_file fs p c) q = path_exists fs q.
Proof.
  unfold path_exists, write_file. intros H.
  destruct (String.eqb_spec q p) as [->|]; [|reflexivity].
  destruct (fs p); [reflexivity|discriminate].
Qed.

Lemma write_file_no_dir (fs : filesystem) (p q : path) (c : text) :
  fs q <> Some Dir -> write_file fs p c q <> Some Dir.
Proof.
  unfold write_file. intros H. destruct (String.eqb q p); [discriminate|exact H].
Qed.

Lemma run_files (linesep : text) (paths : list path) (w : world) :
  (forall p, In p paths -> w_fs w p <> Some Dir) ->
  run linesep paths w =
    (World (fold_left (rewrite_file linesep) paths (w_fs w))
           (w_out w ++ map (notice (w_fs w)) paths), None).
Proof.
  revert w. induction paths as [|p ps IH]; intros [fs out] H; simpl.
  - now rewrite app_nil_r.
  - unfold notice at 1, rewrite_file at 2, fix_app_error_usage.
    simpl in *. unfold path_exists at 1 2.
    destruct (fs p) as [[c|]|] eqn:E.
    + rewrite IH; simpl.
      * rewrite <- app_assoc. simpl.
        rewrite (map_ext (notice (write_file fs p
                   (write_newlines linesep (transform (read_newlines c)))))
                   (notice fs)); [reflexivity|].
        intros q. unfold notice.
        rewrite path_exists_write; [reflexivity|].
        unfold path_exists. now rewrite E.
      * intros q Hq. apply write_file_no_dir. auto.
    + exfalso. apply (H p); auto.
    + rewrite IH; simpl.
      * rewrite <- app_assoc. reflexivity.
      * intros q Hq. auto.
Qed.





(** * Further properties of the substitutions *)

(** X1. For each of the seven patterns, a match at the head of a text is
    exactly an old form at its head: the group is not empty, has no
    excluded character, and is followed by the closing literal; and every
    old form is matched, with that group.  Backtracking never gives a
    shorter group. *)
Theorem match_is_old_form (r : rule) (s g rest : text) :
  In r rules ->
  (match_at r s = Some (g, rest) <->
   valid_group r g = true /\ s = old_form r g ++ rest).
Proof.
  intros Hr. split.
  - apply match_at_inv. now apply rules_wf.
  - intros [Hg ->]. apply match_at_intro; auto using rules_wf.
Qed.

Lemma match_is_old_form_witness :
  match_at rule_validation
    (old_form rule_validation (str "bad port") ++ str ".into()") =
  Some (str "bad port", str ".into()").
Proof.
  refine (proj2 (match_is_old_form rule_validation _ (str "bad port") (str ".into()") _) _).
  - simpl; auto 10.
  - split; [vm_compute; reflexivity|reflexivity].
Defined.

Lemma rules_open_clash (r r' : rule) :
  In r rules -> In r' rules -> r <> r' -> clash (r_open r') (r_open r) = true.
Proof.
  intros Hr Hr' Hne.
  assert (H : forallb (fun a => forallb (fun b =>
            rule_eqb a b || clash (r_open b) (r_open a)) rules) rules = true)
    by (vm_compute; reflexivity).
  rewrite forallb_forall in H. specialize (H r Hr).
  rewrite forallb_forall in H. specialize (H r' Hr').
  apply orb_true_iff in H as [H|H]; [|exact H].
  apply rule_eqb_eq in H. contradiction.
Qed.

(** X2. At one position of a text at most one of the seven patterns
    matches: where one rule matches, no other rule does, since the opening
    literals of two different rules differ. *)
Theorem one_rule_per_position (r r' : rule) (s : text) :
  In r rules -> In r' rules -> r <> r' ->
  match_at r s <> None -> match_at r' s = None.
Proof.
  intros Hr Hr' Hne Hm.
  destruct (match_at r s) as [[g rest]|] eqn:Em; [|congruence].
  apply match_at_inv in Em as [_ ->]; [|now apply rules_wf].
  unfold match_at, old_form. rewrite <- app_assoc.
  now rewrite (clash_strip _ _ _ (rules_open_clash r r' Hr Hr' Hne)).
Qed.

Lemma one_rule_per_position_witness :
  match_at rule_authentication (old_form rule_authorization (str "no")) = None.
Proof.
  refine (one_rule_per_position rule_authorization rule_authentication
            (old_form rule_authorization (str "no")) _ _ _ _).
  - simpl; auto 10.
  - simpl; auto 10.
  - intros E. apply (f_equal r_open) in E. revert E.
    apply text_neq. vm_compute; reflexivity.
  - intros E. vm_compute in E. discriminate E.
Defined.

(** X3. The substitution of one rule never brings a match of another rule
    into a text that had none. *)
Theorem substitution_keeps_others_silent (r r' : rule) (t : text) :
  In r rules -> In r' rules -> r <> r' ->
  any_match r' t = false ->
  any_match r' (re_sub r t) = false.
Proof.
  intros Hr Hr' Hne. apply preserve. now apply rules_compatible.
Qed.

Lemma substitution_keeps_others_silent_witness :
  any_match rule_server_not_found
    (re_sub rule_file_system
       (old_form rule_file_system (str "see AppError::ServerNotFound()"))) = false.
Proof.
  refine (substitution_keeps_others_silent rule_file_system rule_server_not_found
            _ _ _ _ _).
  - simpl; auto 10.
  - simpl; auto 10.
  - intros E. apply (f_equal r_open) in E. revert E.
    apply text_neq. vm_compute; reflexivity.
  - vm_compute; reflexivity.
Defined.

(** ** Lengths *)

Lemma rules_grow (r : rule) (g : text) :
  In r rules -> length (old_form r g) < length (new_form r g).
Proof.
  intros Hr.
  assert (H : forallb (fun a =>
            length (r_open a) + length (r_close a) <?
            length (r_pre a) + length (r_post a)) rules = true)
    by (vm_compute; reflexivity).
  rewrite forallb_forall in H. specialize (H r Hr). apply Nat.ltb_lt in H.
  unfold old_form, new_form, expand. rewrite !length_app. lia.
Qed.

Lemma re_sub_length (r : rule) (t : text) :
  In r rules ->
  length t <= length (re_sub r t) /\
  (any_match r t = true -> length t < length (re_sub r t)).
Proof.
  intros Hr. revert t.
  apply (re_sub_ind r (fun t u =>
    length t <= length u /\ (any_match r t = true -> length t < length u)));
    [now apply rules_wf| | |].
  - split; [reflexivity|]. rewrite any_match_nil. discriminate.
  - intros a t Hm [IH1 IH2]. split; [simpl; lia|].
    cbn [any_match]. rewrite Hm. intros H. specialize (IH2 H). simpl; lia.
  - intros g t Hg [IH1 _]. pose proof (rules_grow r g Hr).
    rewrite !length_app. split; [lia|]. intros _. lia.
Qed.

Lemma apply_rules_length (rs : list rule) (t : text) :
  (forall r, In r rs -> In r rules) ->
  length t <= length (apply_rules rs t) /\
  ((exists r, In r rs /\ any_match r t = true) ->
   length t < length (apply_rules rs t)).
Proof.
  revert t. induction rs as [|r rs IH]; intros t Hsub.
  - split; [reflexivity|]. intros (r & [] & _).
  - change (apply_rules (r :: rs) t) with (apply_rules rs (re_sub r t)).
    assert (Hr : In r rules) by (apply Hsub; now left).
    destruct (re_sub_length r t Hr) as [H1 H2].
    destruct (IH (re_sub r t)) as [H3 H4]; [intros r' Hr'; apply Hsub; now right|].
    split; [lia|].
    intros (r' & Hin & Hm).
    destruct (any_match r t) eqn:E; [specialize (H2 eq_refl); lia|].
    destruct Hin as [<-|Hin]; [congruence|].
    rewrite (re_sub_no_match r t E) in *.
    apply H4. now exists r'.
Qed.

Lemma all_silent_false (t : text) :
  all_silent t = false -> exists r, In r rules /\ any_match r t = true.
Proof.
  unfold all_silent. generalize rules. intros rs.
  induction rs as [|r rs IH]; [discriminate|].
  cbn [forallb]. intros H. apply andb_false_iff in H as [H|H].
  - exists r. split; [now left|]. now apply negb_false_iff.
  - destruct (IH H) as (r' & Hr' & Hm). exists r'. split; [now right|assumption].
Qed.

(** X4. The transform never shortens a text; it returns a text unchanged
    exactly when none of the seven patterns occurs in it; and when one of
    them occurs the result is strictly longer than the text. *)
Theorem transform_fixed_point (t : text) :
  length t <= length (transform t) /\
  (transform t = t <-> all_silent t = true) /\
  (all_silent t = false -> length t < length (transform t)).
Proof.
  destruct (apply_rules_length rules t (fun r H => H)) as [H1 H2].
  split; [exact H1|]. split; [split; [|apply transform_silent]|].
  - intros E. apply all_silent_intro. intros r Hr.
    destruct (any_match r t) eqn:Em; [|reflexivity].
    unfold transform in E. rewrite E in H2.
    assert (length t < length t) by (apply H2; now exists r). lia.
  - intros E. apply H2. now apply all_silent_false.
Qed.

Lemma transform_fixed_point_witness :
  length (str "f(AppError::ServerNotFound(id))") <
  length (transform (str "f(AppError::ServerNotFound(id))")).
Proof.
  refine (proj2 (proj2 (transform_fixed_point (str "f(AppError::ServerNotFound(id))"))) _).
  vm_compute; reflexivity.
Defined.

(** ** What a match needs *)

Lemma occurs_cons (p : text) (a : char) (s : text) :
  occurs p s = true -> occurs p (a :: s) = true.
Proof. intros H. simpl. rewrite H. apply orb_true_r. Qed.

Lemma occurs_head (p s : text) : is_prefix p s = true -> occurs p s = true.
Proof. intros H. destruct s; simpl; now rewrite H. Qed.

Lemma rules_open_prefix (r : rule) :
  In r rules -> exists o, r_open r = str "AppError::" ++ o.
Proof.
  intros Hr.
  assert (H : forallb (fun a =>
            text_eqb (r_open a)
              (str "AppError::" ++ skipn (length (str "AppError::")) (r_open a)))
            rules = true) by (vm_compute; reflexivity).
  rewrite forallb_forall in H. specialize (H r Hr).
  apply text_eqb_eq in H. eauto.
Qed.

Lemma rules_close_last (r : rule) :
  In r rules -> r_close r = removelast (r_close r) ++ [rparen].
Proof.
  intros Hr.
  assert (H : forallb (fun a =>
            text_eqb (r_close a) (removelast (r_close a) ++ [rparen])) rules = true)
    by (vm_compute; reflexivity).
  rewrite forallb_forall in H. now apply text_eqb_eq, H.
Qed.

Lemma any_match_needs (r : rule) (t : text) :
  In r rules -> any_match r t = true ->
  occurs (str "AppError::") t = true /\ free rparen t = false.
Proof.
  intros Hr. destruct (rules_open_prefix r Hr) as (o & Eo).
  induction t as [|a t IH]; [now rewrite any_match_nil|].
  cbn [any_match]. destruct (match_at r (a :: t)) as [[g rest]|] eqn:E.
  - intros _. apply match_at_inv in E as [_ E]; [|now apply rules_wf].
    rewrite E. unfold old_form. split.
    + apply occurs_head. rewrite Eo, <- !app_assoc. apply is_prefix_app.
    + rewrite (rules_close_last r Hr), !free_app. simpl.
      now rewrite !andb_false_r.
  - intros H. destruct (IH H) as [H1 H2]. split; [now apply occurs_cons|].
    rewrite free_cons, H2. apply andb_false_r.
Qed.

(** X5. A text that does not contain [AppError::], or that has no closing
    parenthesis, is returned unchanged by the transform. *)
Theorem unrelated_text_unchanged (t : text) :
  occurs (str "AppError::") t = false \/ free rparen t = true ->
  transform t = t.
Proof.
  intros H. apply transform_silent, all_silent_intro. intros r Hr.
  destruct (any_match r t) eqn:E; [|reflexivity].
  destruct (any_match_needs r t Hr E) as [H1 H2].
  destruct H as [H|H]; congruence.
Qed.

Lemma unrelated_text_unchanged_witness :
  transform (str "fn port(&self) -> Result<u16, Error> { self.port() }") =
  str "fn port(&self) -> Result<u16, Error> { self.port() }".
Proof.
  refine (unrelated_text_unchanged
            (str "fn port(&self) -> Result<u16, Error> { self.port() }") _).
  left. vm_compute; reflexivity.
Defined.

(** ** Text before the first capital A, text after the last parenthesis *)

Lemma strip_prefix_head (b a : char) (p s : text) :
  strip_prefix (b :: p) (a :: s) = if N.eqb b a then strip_prefix p s else None.
Proof. reflexivity. Qed.

Lemma re_sub_before (r : rule) (w X : text) :
  In r rules -> free (N_of_ascii "A") w = true ->
  re_sub r (w ++ X) = w ++ re_sub r X.
Proof.
  intros Hr Hw. destruct (rules_open_prefix r Hr) as (o & Eo).
  apply re_sub_skip_app. intros y Hy.
  pose proof (free_tail _ _ _ Hw Hy) as Hf.
  destruct y as [|a y]; [now apply tails1_split in Hy as (? & _ & ?)|].
  rewrite free_cons in Hf. apply andb_true_iff in Hf as [Ha _].
  apply negb_true_iff in Ha.
  unfold match_at. rewrite Eo.
  change (str "AppError::" ++ o)
    with (N_of_ascii "A" :: (tl (str "AppError::") ++ o)).
  change ((a :: y) ++ X) with (a :: (y ++ X)).
  rewrite strip_prefix_head. now rewrite N.eqb_sym, Ha.
Qed.

Lemma app_split_free (c : char) (o x v rest : text) :
  free c v = true ->
  x ++ v = o ++ [c] ++ rest ->
  exists rest', x = o ++ [c] ++ rest' /\ rest = rest' ++ v.
Proof.
  intros Hv. revert x. induction o as [|a o IH]; intros x E.
  - destruct x as [|b x]; simpl in *.
    + subst v. rewrite free_cons, N.eqb_refl in Hv. discriminate.
    + inversion E; subst. now exists x.
  - destruct x as [|b x]; simpl in *.
    + subst v. rewrite free_cons, free_app, free_cons, N.eqb_refl in Hv.
      simpl in Hv. rewrite !andb_false_r in Hv. discriminate.
    + inversion E; subst. destruct (IH x H1) as (rest' & -> & ->).
      now exists rest'.
Qed.

Lemma match_at_before_tail (r : rule) (s v : text) :
  In r rules -> free rparen v = true ->
  match_at r s = None -> match_at r (s ++ v) = None.
Proof.
  intros Hr Hv Hs.
  destruct (match_at r (s ++ v)) as [[g rest]|] eqn:E; [|reflexivity].
  apply match_at_inv in E as [Hg E]; [|now apply rules_wf].
  unfold old_form in E. rewrite (rules_close_last r Hr) in E.
  rewrite <- !app_assoc in E. rewrite !app_assoc in E.
  rewrite <- (app_assoc _ [rparen] rest) in E.
  apply app_split_free in E as (rest' & E & _); [|assumption].
  rewrite <- !app_assoc in E.
  assert (Es : s = old_form r g ++ rest').
  { rewrite E. unfold old_form. rewrite (rules_close_last r Hr) at 2.
    now rewrite <- !app_assoc. }
  rewrite Es, match_at_intro in Hs; auto using rules_wf. discriminate.
Qed.

Lemma re_sub_after (r : rule) (s v : text) :
  In r rules -> free rparen v = true ->
  re_sub r (s ++ v) = re_sub r s ++ v.
Proof.
  intros Hr Hv. revert s.
  apply (re_sub_ind r (fun s u => re_sub r (s ++ v) = u ++ v));
    [now apply rules_wf| | |].
  - simpl. apply re_sub_no_match.
    destruct (any_match r v) eqn:E; [|reflexivity].
    destruct (any_match_needs r v Hr E). congruence.
  - intros a t Hm IH. change ((a :: t) ++ v) with (a :: (t ++ v)).
    rewrite re_sub_skip; [simpl; now f_equal|].
    now apply (match_at_before_tail r (a :: t) v).
  - intros g t Hg IH. rewrite <- !app_assoc.
    rewrite re_sub_old_form by auto using rules_wf. now f_equal.
Qed.

Lemma apply_rules_local (rs : list rule) (w s v : text) :
  (forall r, In r rs -> In r rules) ->
  free (N_of_ascii "A") w = true -> free rparen v = true ->
  apply_rules rs (w ++ s ++ v) = w ++ apply_rules rs s ++ v.
Proof.
  intros Hsub Hw Hv. revert s. induction rs as [|r rs IH]; intros s; [reflexivity|].
  change (apply_rules (r :: rs) ?x) with (apply_rules rs (re_sub r x)).
  assert (Hr : In r rules) by (apply Hsub; now left).
  rewrite re_sub_before, re_sub_after by assumption.
  apply IH. intros r' Hr'. apply Hsub. now right.
Qed.

(** X6. The transform works between the first capital A and the last
    closing parenthesis of a text: what precedes the first and what follows
    the second is kept as it is, and does not change what happens between
    them. *)
Theorem transform_local (w s v : text) :
  free (N_of_ascii "A") w = true ->
  free rparen v = true ->
  transform (w ++ s ++ v) = w ++ transform s ++ v.
Proof.
  intros Hw Hv. now apply apply_rules_local.
Qed.

Lemma transform_local_witness :
  transform (str "    return Err(" ++
             old_form rule_process (str "exited") ++ str ";  // todo") =
  str "    return Err(" ++
  transform (old_form rule_process (str "exited")) ++ str ";  // todo".
Proof.
  refine (transform_local (str "    return Err(")
            (old_form rule_process (str "exited")) (str ";  // todo") _ _);
    vm_compute; reflexivity.
Defined.

(** ** Characters the templates do not have *)

Lemma re_sub_free (r : rule) (c : char) (t : text) :
  starts_with (r_excl r) (r_close r) = true ->
  free c (r_pre r) = true -> free c (r_post r) = true ->
  free c t = true -> free c (re_sub r t) = true.
Proof.
  intros Hc Hpre Hpost. revert t.
  apply (re_sub_ind r (fun t u => free c t = true -> free c u = true)); auto.
  - intros a t _ IH. rewrite !free_cons. intros H.
    apply andb_true_iff in H as [Ha Ht]. now rewrite Ha, IH.
  - intros g t _ IH. unfold old_form, new_form, expand.
    rewrite !free_app. intros H.
    apply andb_true_iff in H as [H Ht].
    apply andb_true_iff in H as [_ H]. apply andb_true_iff in H as [Hg _].
    now rewrite Hpre, Hpost, Hg, IH.
Qed.

Lemma apply_rules_free (rs : list rule) (c : char) (t : text) :
  (forall r, In r rs -> In r rules) ->
  forallb (fun r => free c (r_pre r) && free c (r_post r)) rs = true ->
  free c t = true -> free c (apply_rules rs t) = true.
Proof.
  revert t. induction rs as [|r rs IH]; intros t Hsub Hc Ht; [exact Ht|].
  change (apply_rules (r :: rs) t) with (apply_rules rs (re_sub r t)).
  simpl in Hc. apply andb_true_iff in Hc as [Hr Hc].
  apply andb_true_iff in Hr as [H1 H2].
  apply IH; [intros r' Hr'; apply Hsub; now right|assumption|].
  apply re_sub_free; auto. apply rules_wf, Hsub. now left.
Qed.

(** X7. The transform brings in characters of the templates only: a
    character that is in none of the seven templates and not in the text is
    not in the result. *)
Theorem no_new_character (c : char) (t : text) :
  forallb (fun r => free c (r_pre r) && free c (r_post r)) rules = true ->
  free c t = true ->
  free c (transform t) = true.
Proof.
  intros Hc Ht. now apply apply_rules_free.
Qed.

Lemma no_new_character_witness :
  free (N_of_ascii "009")
    (transform (str "Err(" ++ old_form rule_internal (str "boom") ++ str ")")) = true.
Proof.
  refine (no_new_character (N_of_ascii "009") _ _ _); vm_compute; reflexivity.
Defined.

(** * Further properties of the driver *)

Lemma run_cons_file (linesep : text) (p : path) (ps : list path)
    (fs : filesystem) (out : list string) (c : text) :
  fs p = Some (File c) ->
  run linesep (p :: ps) (World fs out) =
  run linesep ps
    (World (write_file fs p (write_newlines linesep (transform (read_newlines c))))
           (out ++ [("Fixing " ++ p ++ "...")%string])).
Proof.
  intros E. cbn [run]. unfold path_exists, fix_app_error_usage, print.
  cbn [w_fs w_out]. now rewrite E.
Qed.

Lemma run_cons_dir (linesep : text) (p : path) (ps : list path)
    (fs : filesystem) (out : list string) :
  fs p = Some Dir ->
  run linesep (p :: ps) (World fs out) =
  (World fs (out ++ [("Fixing " ++ p ++ "...")%string]), Some IsADirectoryError).
Proof.
  intros E. cbn [run]. unfold path_exists, fix_app_error_usage, print.
  cbn [w_fs w_out]. now rewrite E.
Qed.

Lemma run_cons_missing (linesep : text) (p : path) (ps : list path)
    (fs : filesystem) (out : list string) :
  fs p = None ->
  run linesep (p :: ps) (World fs out) =
  run linesep ps (World fs (out ++ [("File not found: " ++ p)%string])).
Proof.
  intros E. cbn [run]. unfold path_exists, print.
  cbn [w_fs w_out]. now rewrite E.
Qed.

(** X9. Whatever the paths and however the run ends, it creates no file and
    deletes none, leaves every path that is not in the list as it was,
    leaves directories as they are, and only adds lines to the output, at
    most one for each path. *)
Theorem run_keeps_paths (linesep : text) (paths : list path) (w : world) :
  (forall q, path_exists (w_fs (fst (run linesep paths w))) q =
             path_exists (w_fs w) q) /\
  (forall q, ~ In q paths -> w_fs (fst (run linesep paths w)) q = w_fs w q) /\
  (forall q, w_fs w q = Some Dir ->
             w_fs (fst (run linesep paths w)) q = Some Dir) /\
  exists lines, w_out (fst (run linesep paths w)) = w_out w ++ lines /\
                length lines <= length paths.
Proof.
  revert w. induction paths as [|p ps IH]; intros [fs out].
  - cbn [run fst w_fs w_out]. repeat split; auto.
    exists []. now rewrite app_nil_r.
  - destruct (fs p) as [[c|]|] eqn:E.
    + rewrite (run_cons_file _ _ _ _ _ c E).
      set (fs1 := write_file fs p _).
      destruct (IH (World fs1 (out ++ [("Fixing " ++ p ++ "...")%string])))
        as (H1 & H2 & H3 & lines & H4 & H5). cbn [w_fs w_out] in *.
      repeat split.
      * intros q. rewrite H1. apply path_exists_write.
        unfold path_exists. now rewrite E.
      * intros q Hq. rewrite H2 by (simpl in Hq; tauto). unfold fs1, write_file.
        destruct (String.eqb_spec q p) as [->|]; [simpl in Hq; tauto|reflexivity].
      * intros q Hq. apply H3. unfold fs1, write_file.
        destruct (String.eqb_spec q p) as [->|]; [congruence|assumption].
      * exists (("Fixing " ++ p ++ "...")%string :: lines).
        rewrite H4, <- app_assoc. split; [reflexivity|simpl; lia].
    + rewrite (run_cons_dir _ _ _ _ _ E). cbn [fst w_fs w_out].
      repeat split; auto.
      exists [("Fixing " ++ p ++ "...")%string]. split; [reflexivity|simpl; lia].
    + rewrite (run_cons_missing _ _ _ _ _ E).
      destruct (IH (World fs (out ++ [("File not found: " ++ p)%string])))
        as (H1 & H2 & H3 & lines & H4 & H5). cbn [w_fs w_out] in *.
      repeat split; auto.
      * intros q Hq. apply H2. simpl in Hq. tauto.
      * exists (("File not found: " ++ p)%string :: lines).
        rewrite H4, <- app_assoc. split; [reflexivity|simpl; lia].
Qed.

Lemma run_keeps_paths_witness :
  let fs0 : filesystem := fun p =>
    if String.eqb p "hostd/src/core/websocket.rs"
    then Some (File (old_form rule_internal (str "closed")))
    else if String.eqb p "Cargo.toml" then Some (File (str "[package]"))
    else None in
  w_fs (fst (run [nl] files_to_fix (World fs0 []))) "Cargo.toml"%string =
  Some (File (str "[package]")).
Proof.
  intros fs0.
  refine (proj1 (proj2 (run_keeps_paths [nl] files_to_fix (World fs0 [])))
            "Cargo.toml"%string _).
  simpl. intros H. repeat (destruct H as [H|H]; [discriminate H|]). exact H.
Defined.

(** ** The files of a run *)

Lemma fold_rewrite_other (linesep : text) (paths : list path)
    (fs : filesystem) (q : path) :
  ~ In q paths -> fold_left (rewrite_file linesep) paths fs q = fs q.
Proof.
  revert fs. induction paths as [|p ps IH]; intros fs Hq; [reflexivity|].
  simpl. rewrite IH by (simpl in Hq; tauto).
  unfold rewrite_file. destruct (fs p) as [[c|]|]; try reflexivity.
  unfold write_file. destruct (String.eqb_spec q p) as [->|]; [|reflexivity].
  simpl in Hq. tauto.
Qed.

Lemma fold_rewrite_one (linesep : text) (paths : list path)
    (fs : filesystem) (p : path) (c : text) :
  NoDup paths -> In p paths -> fs p = Some (File c) ->
  fold_left (rewrite_file linesep) paths fs p =
  Some (File (write_newlines linesep (transform (read_newlines c)))).
Proof.
  revert fs. induction paths as [|a ps IH]; intros fs Hnd Hin Hp; [destruct Hin|].
  inversion Hnd as [|? ? Ha Hnd']; subst. simpl.
  destruct Hin as [->|Hin].
  - rewrite fold_rewrite_other by assumption.
    unfold rewrite_file. rewrite Hp. unfold write_file. now rewrite String.eqb_refl.
  - apply IH; auto. unfold rewrite_file.
    destruct (fs a) as [[c'|]|]; try assumption.
    unfold write_file. destruct (String.eqb_spec p a) as [->|]; [tauto|assumption].
Qed.

(** X10. In the model of the file system, where a file is a text that
    opens, decodes as UTF-8 and can be written: when the paths are distinct
    and every one that exists is such a file, the run ends without an
    exception and every listed file holds, at the end, the transform of the
    text it held, read and written in text mode.  (Bytes that do not
    decode, or a file that cannot be opened or written, raise in Python;
    the model has no such file.) *)
Theorem run_rewrites_each (linesep : text) (paths : list path) (w : world)
    (p : path) (c : text) :
  NoDup paths ->
  (forall q, In q paths -> w_fs w q <> Some Dir) ->
  In p paths ->
  w_fs w p = Some (File c) ->
  snd (run linesep paths w) = None /\
  w_fs (fst (run linesep paths w)) p =
    Some (File (write_newlines linesep (transform (read_newlines c)))).
Proof.
  intros Hnd Hd Hin Hp. rewrite run_files by assumption. simpl.
  split; [reflexivity|]. now apply fold_rewrite_one.
Qed.

Lemma run_rewrites_each_witness :
  let fs0 : filesystem := fun p =>
    if String.eqb p "hostd/src/core/monitoring.rs"
    then Some (File (str "Err(" ++ old_form rule_internal (str "boom") ++ str ")"))
    else None in
  w_fs (fst (run [nl] files_to_fix (World fs0 []))) "hostd/src/core/monitoring.rs"%string =
  Some (File (write_newlines [nl] (transform (read_newlines
          (str "Err(" ++ old_form rule_internal (str "boom") ++ str ")"))))).
Proof.
  intros fs0.
  refine (proj2 (run_rewrites_each [nl] files_to_fix (World fs0 [])
                   "hostd/src/core/monitoring.rs"%string _ _ _ _ _)).
  - unfold files_to_fix.
    repeat (apply NoDup_cons;
            [simpl; intros D;
             repeat (destruct D as [D|D]; [discriminate D|]); exact D|]).
    apply NoDup_nil.
  - intros q _. simpl. unfold fs0.
    destruct (String.eqb q "hostd/src/core/monitoring.rs"); discriminate.
  - simpl; auto 10.
  - reflexivity.
Defined.

(** X11. A listed path that exists and is not a file stops the run: the
    paths before it are handled as usual, its [Fixing] line is printed, the
    run ends with the exception of the failed [open], and the paths after
    it are neither announced nor rewritten. *)
Theorem run_stops_at_directory (linesep : text) (ps1 ps2 : list path)
    (d : path) (w : world) :
  (forall q, In q ps1 -> w_fs w q <> Some Dir) ->
  w_fs w d = Some Dir ->
  run linesep (ps1 ++ d :: ps2) w =
    (World (fold_left (rewrite_file linesep) ps1 (w_fs w))
           (w_out w ++ map (notice (w_fs w)) ps1 ++
            [("Fixing " ++ d ++ "...")%string]),
     Some IsADirectoryError).
Proof.
  revert w. induction ps1 as [|p ps IH]; intros [fs out] Hf Hd; simpl in *.
  - unfold path_exists, fix_app_error_usage. simpl. now rewrite Hd.
  - unfold notice at 1, rewrite_file at 2, fix_app_error_usage.
    unfold path_exists at 1 2. simpl.
    destruct (fs p) as [[c|]|] eqn:E.
    + rewrite IH; simpl.
      * rewrite <- app_assoc. simpl.
        rewrite (map_ext (notice (write_file fs p
                   (write_newlines linesep (transform (read_newlines c)))))
                   (notice fs)); [reflexivity|].
        intros q. unfold notice.
        rewrite path_exists_write; [reflexivity|].
        unfold path_exists. now rewrite E.
      * intros q Hq. apply write_file_no_dir. auto.
      * unfold write_file. destruct (String.eqb_spec d p) as [->|]; [congruence|assumption].
    + exfalso. apply (Hf p); auto.
    + rewrite IH; simpl; auto. rewrite <- app_assoc. reflexivity.
Qed.

Lemma run_stops_at_directory_witness :
  let fs0 : filesystem := fun p =>
    if String.eqb p "hostd/src/core/security.rs" then Some Dir else None in
  run [nl] files_to_fix (World fs0 []) =
    (World fs0 ["File not found: hostd/src/core/file_manager.rs";
                "Fixing hostd/src/core/security.rs..."]%string,
     Some IsADirectoryError).
Proof.
  intros fs0.
  refine (run_stops_at_directory [nl] ["hostd/src/core/file_manager.rs"%string]
            ["hostd/src/core/monitoring.rs"; "hostd/src/core/websocket.rs"]%string
            "hostd/src/core/security.rs"%string (World fs0 []) _ _).
  - intros q [<-|[]]. simpl. discriminate.
  - reflexivity.
Defined.

(** ** Line ends *)

Lemma write_newlines_posix (s : text) : write_newlines [nl] s = s.
Proof.
  unfold write_newlines. induction s as [|a s IH]; [reflexivity|].
  cbn [flat_map]. rewrite IH.
  destruct (N.eqb_spec a nl) as [->|]; reflexivity.
Qed.

Lemma read_newlines_id (s : text) :
  free cr s = true -> read_newlines s = s.
Proof.
  induction s as [|a s IH]; [reflexivity|].
  rewrite free_cons. intros H. apply andb_true_iff in H as [Ha Hs].
  apply negb_true_iff in Ha. cbn [read_newlines]. rewrite Ha.
  now rewrite IH.
Qed.

Lemma read_newlines_free_upto (n : nat) (s : text) :
  length s <= n -> free cr (read_newlines s) = true.
Proof.
  revert s. induction n as [|n IH]; intros [|a s] Hn; try reflexivity;
    try (simpl in Hn; lia).
  cbn [read_newlines]. destruct (N.eqb a cr) eqn:Ea.
  - rewrite free_cons. change (negb (N.eqb nl cr)) with true. simpl andb.
    destruct s as [|b s]; [reflexivity|].
    destruct (N.eqb b nl); apply IH; simpl in *; lia.
  - rewrite free_cons, Ea. simpl. apply IH. simpl in Hn. lia.
Qed.

Lemma read_newlines_free (s : text) : free cr (read_newlines s) = true.
Proof. now apply (read_newlines_free_upto (length s)). Qed.

Lemma transform_free_cr (s : text) :
  free cr s = true -> free cr (transform s) = true.
Proof.
  apply apply_rules_free; [auto|vm_compute; reflexivity].
Qed.

(** X12. Where the line separator is the line feed, [fix_app_error_usage]
    on a file writes back a text without carriage return, and leaves every
    other path alone; when the file had no carriage return and none of the
    seven patterns, it writes back the text the file had. *)
Theorem posix_write_back (fs : filesystem) (file_path : path) (content : text) :
  fs file_path = Some (File content) ->
  exists written,
    fix_app_error_usage [nl] fs file_path = Ok (write_file fs file_path written) /\
    free cr written = true /\
    (free cr content = true -> all_silent content = true -> written = content).
Proof.
  intros E. exists (transform (read_newlines content)).
  unfold fix_app_error_usage. rewrite E, write_newlines_posix.
  split; [reflexivity|]. split.
  - apply transform_free_cr, read_newlines_free.
  - intros Hc Hs. rewrite read_newlines_id by assumption.
    now apply transform_silent.
Qed.

Lemma posix_write_back_witness :
  let fs0 : filesystem := fun p =>
    if String.eqb p "lib.rs" then Some (File (str "mod core;" ++ [nl])) else None in
  exists written,
    fix_app_error_usage [nl] fs0 "lib.rs"%string =
      Ok (write_file fs0 "lib.rs"%string written) /\
    free cr written = true /\
    (free cr (str "mod core;" ++ [nl]) = true ->
     all_silent (str "mod core;" ++ [nl]) = true ->
     written = str "mod core;" ++ [nl]).
Proof.
  intros fs0.
  refine (posix_write_back fs0 "lib.rs"%string (str "mod core;" ++ [nl]) _).
  reflexivity.
Defined.

(** * Calls in their context *)

(** ** A match across the end of a text *)

Lemma strip_prefix_app_cases (p s Y z : text) :
  strip_prefix p (s ++ Y) = Some z ->
  (exists s0, strip_prefix p s = Some s0 /\ z = s0 ++ Y) \/
  (exists p2, p = s ++ p2 /\ p2 <> [] /\ strip_prefix p2 Y = Some z).
Proof.
  revert s. induction p as [|a p IH]; intros s H.
  - left. exists s. simpl in *. split; [reflexivity|congruence].
  - destruct s as [|b s].
    + right. exists (a :: p). repeat split; [discriminate|exact H].
    + change ((b :: s) ++ Y) with (b :: (s ++ Y)) in H.
      rewrite strip_prefix_head in H.
      destruct (N.eqb a b) eqn:E; [|discriminate]. apply N.eqb_eq in E. subst b.
      destruct (IH s H) as [(s0 & E1 & E2)|(p2 & E1 & E2 & E3)].
      * left. exists s0. rewrite strip_prefix_same. auto.
      * right. exists p2. subst p. auto.
Qed.

Lemma run_app_found (c x : char) (s Y : text) :
  free c s = false ->
  close_after_run c [c; x] s = None ->
  starts_with x Y = false ->
  close_after_run c [c; x] (s ++ Y) = None.
Proof.
  intros Hf H HY. unfold close_after_run in *. rewrite skip_run_app by assumption.
  destruct (skip_run_found c s Hf) as (s3 & E). rewrite E in *.
  change ((c :: s3) ++ Y) with (c :: (s3 ++ Y)). rewrite strip_prefix_same in *.
  destruct s3 as [|d s3].
  - destruct Y as [|y Y]; [reflexivity|]. cbn [app]. rewrite strip_prefix_one.
    simpl in HY. rewrite N.eqb_sym, HY. reflexivity.
  - cbn [app]. rewrite strip_prefix_one in *.
    destruct (N.eqb x d); [discriminate|reflexivity].
Qed.

Lemma run_app_free (c : char) (close s Y : text) :
  free c s = true ->
  close_after_run c close (s ++ Y) = close_after_run c close Y.
Proof. intros H. unfold close_after_run. now rewrite skip_run_free. Qed.

Lemma run_boundary (c x : char) (s Y : text) :
  close_after_run c [c; x] s = None ->
  close_after_run c [c; x] Y = None ->
  starts_with x Y = false ->
  close_after_run c [c; x] (s ++ Y) = None.
Proof.
  intros H HY Hx. destruct (free c s) eqn:Hf.
  - now rewrite run_app_free.
  - now apply run_app_found.
Qed.

Lemma plus_boundary (c x : char) (s Y : text) :
  match_plus c [c; x] s = None ->
  close_after_run c [c; x] Y = None ->
  starts_with x Y = false ->
  match_plus c [c; x] (s ++ Y) = None.
Proof.
  intros H HY Hx. destruct s as [|a s].
  - apply match_plus_skip_none. exact HY.
  - change ((a :: s) ++ Y) with (a :: (s ++ Y)).
    destruct (N.eqb a c) eqn:Ea.
    + cbn [match_plus]. now rewrite Ea.
    + apply match_plus_skip_none. cbn [skip_run]. rewrite Ea.
      apply (run_boundary c x s Y); auto.
      now apply (match_plus_none_skip c a).
Qed.

Lemma string_boundary (r : rule) (s Y : text) :
  In r string_rules -> s <> [] ->
  close_after_run dq [dq; rparen] Y = None ->
  starts_with rparen Y = false ->
  (forall p, In p (tails1 (tl (r_open r))) -> strip_prefix p Y = None) ->
  match_at r s = None -> match_at r (s ++ Y) = None.
Proof.
  intros Hr Hs HY Hx Hp H. destruct (string_rules_shape r Hr) as (Ec & Ecl & _).
  unfold match_at in *. rewrite Ec, Ecl in *.
  destruct (strip_prefix (r_open r) (s ++ Y)) as [z|] eqn:E; [|reflexivity].
  apply strip_prefix_app_cases in E as [(s0 & E1 & ->)|(p2 & E1 & E2 & E3)].
  - rewrite E1 in H. now apply plus_boundary.
  - exfalso. rewrite Hp in E3; [discriminate|].
    destruct s as [|a s]; [congruence|]. rewrite E1.
    apply (tails1_in _ s); auto.
Qed.

Lemma plus_one_none (c : char) (s : text) :
  match_plus c [c] s = None -> free c s = false -> starts_with c s = true.
Proof.
  intros H Hf. destruct s as [|a s]; [discriminate|]. simpl.
  destruct (N.eqb a c) eqn:Ea; [reflexivity|]. exfalso.
  rewrite free_cons, Ea in Hf. simpl in Hf.
  apply (match_plus_none_skip c a [] s Ea) in H.
  apply (close_after_run_found c s [] Hf). rewrite app_nil_r. exact H.
Qed.

Lemma closed_calls_tail (x s : text) :
  closed_calls (x ++ s) = true -> closed_calls s = true.
Proof.
  induction x as [|a x IH]; intros H; [exact H|].
  change ((a :: x) ++ s) with (a :: (x ++ s)) in H. cbn [closed_calls] in H.
  apply andb_true_iff in H as [_ H]. auto.
Qed.

Lemma closed_calls_head (s s0 : text) :
  closed_calls s = true ->
  strip_prefix (r_open rule_server_not_found) s = Some s0 ->
  free rparen s0 = false.
Proof.
  intros Hc E. destruct s as [|a s]; [discriminate|].
  cbn [closed_calls] in Hc. unfold is_prefix in Hc. rewrite E in Hc.
  apply andb_true_iff in Hc as [Hc _]. cbn [negb orb] in Hc.
  apply negb_true_iff in Hc. apply strip_prefix_inv in E.
  rewrite E, free_app in Hc.
  change (free rparen (r_open rule_server_not_found)) with true in Hc.
  exact Hc.
Qed.

Lemma snf_boundary (s Y : text) :
  s <> [] -> closed_calls s = true ->
  (forall p, In p (tails1 (tl (r_open rule_server_not_found))) ->
             strip_prefix p Y = None) ->
  match_at rule_server_not_found s = None ->
  match_at rule_server_not_found (s ++ Y) = None.
Proof.
  intros Hs Hc Hp H. unfold match_at in *.
  change (r_excl rule_server_not_found) with rparen in *.
  change (r_close rule_server_not_found) with [rparen] in *.
  destruct (strip_prefix (r_open rule_server_not_found) (s ++ Y)) as [z|] eqn:E;
    [|reflexivity].
  apply strip_prefix_app_cases in E as [(s0 & E1 & ->)|(p2 & E1 & E2 & E3)].
  - pose proof (closed_calls_head s s0 Hc E1) as Hf.
    rewrite E1 in H. apply plus_one_none in H; [|assumption].
    destruct s0 as [|a s0]; [discriminate|]. simpl in H.
    cbn [app match_plus]. now rewrite H.
  - exfalso. rewrite Hp in E3; [discriminate|].
    destruct s as [|a s]; [congruence|]. rewrite E1.
    apply (tails1_in _ s); auto.
Qed.

(** ** A substitution on either side of a text *)

Lemma re_sub_split (r : rule) (ok : text -> bool) (Y : text) :
  starts_with (r_excl r) (r_close r) = true ->
  (forall a s, ok (a :: s) = true -> ok s = true) ->
  (forall a s, ok (a :: s) = true -> match_at r (a :: s) = None ->
               match_at r ((a :: s) ++ Y) = None) ->
  forall w, ok w = true -> re_sub r (w ++ Y) = re_sub r w ++ re_sub r Y.
Proof.
  intros Hc Hok Hb.
  assert (Hok' : forall x s, ok (x ++ s) = true -> ok s = true).
  { induction x as [|a x IH]; intros s H; [exact H|]. apply IH, (Hok a), H. }
  apply (re_sub_ind r (fun w u => ok w = true -> re_sub r (w ++ Y) = u ++ re_sub r Y) Hc).
  - reflexivity.
  - intros a t Hm IH H.
    change ((a :: t) ++ Y) with (a :: (t ++ Y)).
    rewrite re_sub_skip by (now apply (Hb a t)).
    cbn [app]. f_equal. apply IH, (Hok a), H.
  - intros g t Hg IH H. rewrite <- !app_assoc.
    rewrite re_sub_old_form by assumption. f_equal.
    apply IH, (Hok' (old_form r g)), H.
Qed.

Lemma opens_apart (r : rule) (p : text) :
  In r rules -> In p (tails1 (tl (r_open r))) -> clash p (str "AppError::") = true.
Proof.
  intros Hr.
  assert (H : forallb (fun a =>
            forallb (fun p => clash p (str "AppError::")) (tails1 (tl (r_open a))))
          rules = true) by (vm_compute; reflexivity).
  rewrite forallb_forall in H. specialize (H r Hr).
  rewrite forallb_forall in H. exact (H p).
Qed.

Lemma string_split (r : rule) (w B0 v : text) :
  In r string_rules ->
  (forall v', close_after_run dq [dq; rparen] ((str "AppError::" ++ B0) ++ v') = None) ->
  (forall y v', In y (tails1 (str "AppError::" ++ B0)) -> match_at r (y ++ v') = None) ->
  re_sub r (w ++ (str "AppError::" ++ B0) ++ v) =
  re_sub r w ++ (str "AppError::" ++ B0) ++ re_sub r v.
Proof.
  intros Hr Hq Hin.
  pose proof (rules_wf r (string_rules_in_rules r Hr)) as Hc.
  rewrite (re_sub_split r (fun _ => true)); auto.
  - f_equal. apply re_sub_skip_app. intros y Hy. now apply Hin.
  - intros a s _ Hm. apply string_boundary; auto; [discriminate|].
    intros p Hp. rewrite <- !app_assoc. apply clash_strip.
    apply (opens_apart r); [now apply string_rules_in_rules|exact Hp].
Qed.

Lemma snf_split_gen (w B0 v : text) :
  closed_calls w = true ->
  re_sub rule_server_not_found (w ++ (str "AppError::" ++ B0) ++ v) =
  re_sub rule_server_not_found w ++
  re_sub rule_server_not_found ((str "AppError::" ++ B0) ++ v).
Proof.
  intros Hw.
  apply (re_sub_split rule_server_not_found closed_calls); auto.
  - intros a s H. now apply (closed_calls_tail [a]).
  - intros a s H Hm. apply snf_boundary; auto; [discriminate|].
    intros p Hp. rewrite <- !app_assoc. apply clash_strip.
    apply (opens_apart rule_server_not_found); [simpl; auto 10|exact Hp].
Qed.

Lemma snf_split (w B0 v : text) :
  closed_calls w = true ->
  (forall y v', In y (tails1 (str "AppError::" ++ B0)) ->
                match_at rule_server_not_found (y ++ v') = None) ->
  re_sub rule_server_not_found (w ++ (str "AppError::" ++ B0) ++ v) =
  re_sub rule_server_not_found w ++ (str "AppError::" ++ B0) ++
  re_sub rule_server_not_found v.
Proof.
  intros Hw Hin. rewrite snf_split_gen by assumption.
  f_equal. apply re_sub_skip_app. intros y Hy. now apply Hin.
Qed.

(** ** The seven rules, every pair *)

Lemma pair_tables (r r' : rule) :
  In r rules -> In r' rules ->
  clash_all (r_open r') (r_pre r) = true /\
  clash_all (tl (r_close r')) (r_pre r) = true /\
  starts_other (r_excl r') (r_open r) = true /\
  starts_other (r_excl r') (r_pre r) = true /\
  forallb (clash (r_open r')) (tails1 (r_pre r)) = true /\
  forallb (clash (r_open r')) (tails1 (r_post r)) = true.
Proof.
  intros Hr Hr'.
  assert (H : forallb (fun a => forallb (fun b =>
            clash_all (r_open b) (r_pre a) &&
            clash_all (tl (r_close b)) (r_pre a) &&
            starts_other (r_excl b) (r_open a) &&
            starts_other (r_excl b) (r_pre a) &&
            forallb (clash (r_open b)) (tails1 (r_pre a)) &&
            forallb (clash (r_open b)) (tails1 (r_post a))) rules) rules = true)
    by (vm_compute; reflexivity).
  rewrite forallb_forall in H. specialize (H r Hr).
  rewrite forallb_forall in H. specialize (H r' Hr').
  apply andb_true_iff in H as [H H6]. apply andb_true_iff in H as [H H5].
  apply andb_true_iff in H as [H H4]. apply andb_true_iff in H as [H H3].
  apply andb_true_iff in H as [H1 H2]. auto 10.
Qed.

Lemma rule_eq_dec (r r' : rule) : r = r' \/ r <> r'.
Proof.
  destruct (rule_eqb r r') eqn:E.
  - left. now apply rule_eqb_eq.
  - right. intros ->. now rewrite (proj2 (rule_eqb_eq r' r') eq_refl) in E.
Qed.

Lemma pair_run (r r' : rule) (g t u : text) :
  In r rules -> In r' rules -> valid_group r g = true ->
  close_after_run (r_excl r') (r_close r') (old_form r g ++ t) = None ->
  close_after_run (r_excl r') (r_close r') (new_form r g ++ u) = None.
Proof.
  intros Hr Hr' Hg. destruct (rule_eq_dec r r') as [<-|Hne]; [now apply own_run|].
  pose proof (rules_compatible r r' Hr Hr' Hne) as H.
  unfold compatible in H. apply andb_true_iff in H as [_ Hclass].
  apply orb_true_iff in Hclass as [Hclass|Hclass];
    [apply orb_true_iff in Hclass as [Hclass|Hclass]|].
  - apply same_class_run; auto using rules_wf.
  - now apply closed_out_run.
  - now apply closed_in_run.
Qed.

Lemma pair_transfer (r r' : rule) (t : text) :
  In r rules -> In r' rules ->
  match_at r' t = None -> match_at r' (re_sub r t) = None.
Proof.
  intros Hr Hr'. destruct (pair_tables r r' Hr Hr') as (H1 & H2 & H3 & H4 & _).
  apply match_at_transfer; auto using rules_wf.
  intros g t0 u. now apply pair_run.
Qed.

Lemma pair_run_transfer (r r' : rule) (t : text) :
  In r rules -> In r' rules ->
  close_after_run (r_excl r') (r_close r') t = None ->
  close_after_run (r_excl r') (r_close r') (re_sub r t) = None.
Proof.
  intros Hr Hr'. destruct (pair_tables r r' Hr Hr') as (H1 & H2 & H3 & H4 & _).
  apply run_transfer; auto using rules_wf.
  intros g t0 u. now apply pair_run.
Qed.

Lemma prefix_transfer (r : rule) (p t : text) :
  starts_with (r_excl r) (r_close r) = true ->
  clash_all p (r_pre r) = true ->
  strip_prefix p t = None -> strip_prefix p (re_sub r t) = None.
Proof.
  intros Hc Hp H.
  pose proof (@literal_transfer r Hc text (fun _ => Some []) p Hp) as L.
  unfold after in L. specialize (L ltac:(discriminate) t).
  rewrite H in L. specialize (L eq_refl).
  destruct (strip_prefix p (re_sub r t)); [discriminate|reflexivity].
Qed.

(** ** Open calls and the substitutions *)

Lemma tails1_app (a b y : text) :
  In y (tails1 (a ++ b)) ->
  (exists y', In y' (tails1 a) /\ y = y' ++ b) \/ In y (tails1 b).
Proof.
  induction a as [|x a IH]; intros H; [now right|].
  change ((x :: a) ++ b) with (x :: (a ++ b)) in H. cbn [tails1] in H.
  destruct H as [<-|H].
  - left. exists (x :: a). split; [now left|reflexivity].
  - destruct (IH H) as [(y' & Hy' & E)|Hb]; [|now right].
    left. exists y'. split; [now right|exact E].
Qed.

Lemma re_sub_rparen (r : rule) (t : text) :
  In r rules -> free rparen t = false -> free rparen (re_sub r t) = false.
Proof.
  intros Hr.
  assert (Hp : free rparen (r_post r) = false).
  { assert (H : forallb (fun a => negb (free rparen (r_post a))) rules = true)
      by (vm_compute; reflexivity).
    rewrite forallb_forall in H. now apply negb_true_iff, H. }
  revert t. apply (re_sub_ind r (fun t u => free rparen t = false -> free rparen u = false));
    [now apply rules_wf|auto| |].
  - intros a t _ IH H. rewrite free_cons in *.
    apply andb_false_iff in H as [H|H]; [now rewrite H|].
    rewrite (IH H). apply andb_false_r.
  - intros g t _ _ _. unfold new_form, expand.
    rewrite !free_app, Hp. now rewrite !andb_false_r.
Qed.

Lemma closed_calls_app (x u : text) :
  (forall y, In y (tails1 x) ->
     is_prefix (r_open rule_server_not_found) (y ++ u) = false \/
     free rparen (y ++ u) = false) ->
  closed_calls u = true -> closed_calls (x ++ u) = true.
Proof.
  intros H Hu. induction x as [|a x IH]; [exact Hu|].
  change ((a :: x) ++ u) with (a :: (x ++ u)). cbn [closed_calls].
  apply andb_true_iff. split.
  - destruct (H (a :: x)) as [E|E]; [now left| |];
      change ((a :: x) ++ u) with (a :: (x ++ u)) in E; rewrite E;
      [reflexivity|apply orb_true_r].
  - apply IH. intros y Hy. apply H. now right.
Qed.

Lemma closed_calls_re_sub (r : rule) (w : text) :
  In r rules ->
  closed_calls w = true -> closed_calls (re_sub r w) = true.
Proof.
  intros Hr. pose proof (rules_wf r Hr) as Hc.
  assert (Hsnf : In rule_server_not_found rules) by (simpl; auto 10).
  destruct (pair_tables r rule_server_not_found Hr Hsnf) as (Ho & _ & _ & _ & Hpre & _).
  assert (Hpost : forallb (fun y => negb (free rparen y) ||
                                    clash (r_open rule_server_not_found) y)
                          (tails1 (r_post r)) = true).
  { assert (H : forallb (fun a =>
        forallb (fun y => negb (free rparen y) ||
                          clash (r_open rule_server_not_found) y)
                (tails1 (r_post a))) rules = true) by (vm_compute; reflexivity).
    rewrite forallb_forall in H. now apply H. }
  assert (Hp : free rparen (r_post r) = false).
  { assert (H : forallb (fun a => negb (free rparen (r_post a))) rules = true)
      by (vm_compute; reflexivity).
    rewrite forallb_forall in H. now apply negb_true_iff, H. }
  revert w.
  apply (re_sub_ind r (fun t u => closed_calls t = true -> closed_calls u = true) Hc).
  - auto.
  - intros a t Hm IH H. cbn [closed_calls] in *.
    apply andb_true_iff in H as [H1 H2]. rewrite (IH H2), andb_true_r.
    rewrite <- (re_sub_skip r a t Hm).
    apply orb_true_iff in H1 as [H1|H1]; apply negb_true_iff in H1.
    + unfold is_prefix in *.
      destruct (strip_prefix (r_open rule_server_not_found) (a :: t)) eqn:E;
        [discriminate|].
      now rewrite (prefix_transfer r _ _ Hc Ho E).
    + rewrite (re_sub_rparen r _ Hr H1). apply orb_true_r.
  - intros g t Hg IH H.
    apply closed_calls_app; [|apply IH, (closed_calls_tail (old_form r g)), H].
    intros y Hy. unfold new_form, expand in Hy.
    apply tails1_app in Hy as [(y' & _ & ->)|Hy].
    + right. rewrite <- !app_assoc, !free_app, Hp. now rewrite !andb_false_r.
    + apply tails1_app in Hy as [(y' & _ & ->)|Hy].
      * right. rewrite <- !app_assoc, !free_app, Hp. now rewrite !andb_false_r.
      * rewrite forallb_forall in Hpost. specialize (Hpost y Hy).
        apply orb_true_iff in Hpost as [E|E].
        -- right. apply negb_true_iff in E. now rewrite free_app, E.
        -- left. unfold is_prefix. now rewrite clash_strip.
Qed.

Lemma none_in_all (rs : list rule) (w X : text) :
  none_in rs w X = true ->
  forall r y, In r rs -> In y (tails1 w) -> match_at r (y ++ X) = None.
Proof.
  induction w as [|a w IH]; intros H r y Hr Hy; [destruct Hy|].
  cbn [none_in] in H. apply andb_true_iff in H as [H1 H2].
  destruct Hy as [<-|Hy]; [|now apply IH].
  unfold none_at in H1. rewrite forallb_forall in H1. specialize (H1 r Hr).
  destruct (match_at r ((a :: w) ++ X)); [discriminate|reflexivity].
Qed.

(** ** The transform on either side of a block

    A block that begins with [AppError::], in which no pattern matches
    whatever follows it, and whose first double quote does not close a
    literal: every substitution goes over the text before it, over the
    block and over the text after it one by one. *)

Lemma apply_string_split (rs : list rule) (w B0 v : text) :
  (forall r, In r rs -> In r string_rules) ->
  (forall v', close_after_run dq [dq; rparen] ((str "AppError::" ++ B0) ++ v') = None) ->
  (forall r y v', In r rs -> In y (tails1 (str "AppError::" ++ B0)) ->
                  match_at r (y ++ v') = None) ->
  apply_rules rs (w ++ (str "AppError::" ++ B0) ++ v) =
  apply_rules rs w ++ (str "AppError::" ++ B0) ++ apply_rules rs v.
Proof.
  intros Hrs Hq Hin. revert w v.
  induction rs as [|r rs IH]; intros w v; [reflexivity|].
  change (apply_rules (r :: rs) ?x) with (apply_rules rs (re_sub r x)).
  rewrite string_split; auto.
  - apply IH; [intros r' Hr'; apply Hrs; now right|].
    intros r' y v' Hr'. apply Hin. now right.
  - apply Hrs. now left.
  - intros y v'. apply Hin. now left.
Qed.

Lemma apply_rules_closed (rs : list rule) (w : text) :
  (forall r, In r rs -> In r rules) ->
  closed_calls w = true -> closed_calls (apply_rules rs w) = true.
Proof.
  revert w. induction rs as [|r rs IH]; intros w Hrs Hw; [exact Hw|].
  change (apply_rules (r :: rs) w) with (apply_rules rs (re_sub r w)).
  apply IH; [intros r' Hr'; apply Hrs; now right|].
  apply closed_calls_re_sub; [apply Hrs; now left|exact Hw].
Qed.

Lemma rules_parts :
  rules = [rule_file_system; rule_process; rule_validation] ++
          [rule_server_not_found] ++
          [rule_internal; rule_authentication; rule_authorization].
Proof. reflexivity. Qed.

Lemma transform_keeps_block (w B0 v : text) :
  closed_calls w = true ->
  (forall v', close_after_run dq [dq; rparen] ((str "AppError::" ++ B0) ++ v') = None) ->
  (forall r y v', In r rules -> In y (tails1 (str "AppError::" ++ B0)) ->
                  match_at r (y ++ v') = None) ->
  transform (w ++ (str "AppError::" ++ B0) ++ v) =
  transform w ++ (str "AppError::" ++ B0) ++ transform v.
Proof.
  intros Hw Hq Hin. unfold transform. rewrite rules_parts, !apply_rules_app.
  rewrite apply_string_split; auto.
  - change (apply_rules [rule_server_not_found] ?x) with (re_sub rule_server_not_found x).
    rewrite snf_split.
    + apply apply_string_split; auto.
      * simpl; intuition.
      * intros r y v' Hr. apply Hin. simpl in *; intuition.
    + apply apply_rules_closed; [simpl; intuition|exact Hw].
    + intros y v'. apply Hin. simpl; auto 10.
  - simpl; intuition.
  - intros r y v' Hr. apply Hin. simpl in *; intuition.
Qed.

(** ** The call with an empty literal *)

Lemma empty_call_block (r : rule) :
  In r string_rules ->
  (forall v, close_after_run dq [dq; rparen] (old_form r [] ++ v) = None) /\
  (forall v, none_in rules (old_form r []) v = true) /\
  old_form r [] = str "AppError::" ++ skipn 10 (old_form r []).
Proof.
  intros Hr. simpl in Hr.
  repeat (destruct Hr as [<-|Hr];
          [split; [intros v; vm_compute; reflexivity|];
           split; [intros v; vm_compute; reflexivity|reflexivity]|]).
  destruct Hr.
Qed.

(** C9 (amended). For each of the six rules with a quoted argument, an
    occurrence of the call with an empty literal, [AppError::<Tag>("")], is
    left as it is by the transform, and the text before it and the text
    after it are transformed as they are alone, when no ServerNotFound call
    is left open before it (wherever [AppError::ServerNotFound(] occurs
    before the call, a closing parenthesis follows before the call);
    whatever follows the call, none of the seven patterns matches at it:
    the group needs one character other than a double quote. *)
Theorem empty_literal_untouched (r : rule) (w v : text) :
  In r string_rules ->
  closed_calls w = true ->
  transform (w ++ (r_open r ++ [dq] ++ str ")") ++ v) =
    transform w ++ (r_open r ++ [dq] ++ str ")") ++ transform v /\
  forall r' rest, In r' rules ->
    match_at r' ((r_open r ++ [dq] ++ str ")") ++ rest) = None.
Proof.
  intros Hr Hw. destruct (empty_call_block r Hr) as (Hq & Hn & E).
  assert (Eo : r_open r ++ [dq] ++ str ")" = old_form r []).
  { simpl in Hr. repeat (destruct Hr as [<-|Hr]; [reflexivity|]). destruct Hr. }
  rewrite Eo. split.
  - rewrite E. apply transform_keeps_block; auto.
    + intros v'. rewrite <- E. apply Hq.
    + intros r' y v' Hr' Hy. rewrite <- E in Hy.
      exact (none_in_all rules _ v' (Hn v') r' y Hr' Hy).
  - intros r' rest Hr'.
    destruct (old_form r []) as [|a l] eqn:El; [discriminate E|].
    apply (none_in_all rules (a :: l) rest (Hn rest)); [assumption|now left].
Qed.

Lemma empty_literal_untouched_witness :
  transform (str "Err(AppError::ServerNotFound(id)); f(" ++
             (str "AppError::Validation(" ++ [dq] ++ [dq] ++ str ")") ++ str ");") =
  transform (str "Err(AppError::ServerNotFound(id)); f(") ++
  (str "AppError::Validation(" ++ [dq] ++ [dq] ++ str ")") ++ transform (str ");").
Proof.
  refine (proj1 (empty_literal_untouched rule_validation
            (str "Err(AppError::ServerNotFound(id)); f(") (str ");") _ _)).
  - simpl; auto 10.
  - vm_compute; reflexivity.
Defined.

(** C9, as stated, fails: inside the argument of a ServerNotFound call the
    call with an empty literal is not left as it is: rule 4 takes it, up to
    its closing parenthesis, as the server id. *)
Lemma empty_literal_swallowed :
  let call := str "AppError::Internal(" ++ [dq] ++ [dq] ++ str ")" in
  let t := str "AppError::ServerNotFound(" ++ call ++ str ")" in
  occurs call t = true /\
  occurs call (transform t) = false /\
  transform t =
    new_form rule_server_not_found (str "AppError::Internal(" ++ [dq] ++ [dq]) ++ str ")".
Proof. repeat split; vm_compute; reflexivity. Qed.

(** ** Opening literals inside a block *)

Lemma occurs_tail (p s gs w : text) :
  In gs (tails1 s) -> gs = p ++ w -> occurs p s = true.
Proof.
  intros Hgs ->. apply tails1_split in Hgs as (x & -> & _). apply occurs_intro.
Qed.

Lemma no_open_inside (r : rule) (x : char) (s gs X : text) :
  free x (r_open r) = true ->
  occurs (r_open r) s = false ->
  In gs (tails1 s) ->
  match_at r (gs ++ x :: X) = None.
Proof.
  intros Hx Ho Hgs. unfold match_at.
  destruct (strip_prefix (r_open r) (gs ++ x :: X)) as [s1|] eqn:E; [|reflexivity].
  apply strip_prefix_within in E as (w' & E & _); [|assumption].
  now rewrite (occurs_tail _ _ _ _ Hgs E) in Ho.
Qed.

Lemma rules_open_free (r : rule) :
  In r rules -> free rparen (r_open r) = true /\ starts_with (N_of_ascii "A") (r_open r) = true.
Proof.
  intros Hr.
  assert (H : forallb (fun a => free rparen (r_open a) &&
                               starts_with (N_of_ascii "A") (r_open a)) rules = true)
    by (vm_compute; reflexivity).
  rewrite forallb_forall in H. now apply andb_true_iff, H.
Qed.

Lemma no_match_other_head (r : rule) (c : char) (s : text) :
  In r rules -> N.eqb c (N_of_ascii "A") = false -> match_at r (c :: s) = None.
Proof.
  intros Hr Hc. destruct (rules_open_free r Hr) as [_ H].
  unfold match_at. destruct (r_open r) as [|a o]; [discriminate|].
  cbn [starts_with] in H. rewrite strip_prefix_head.
  destruct (N.eqb a c) eqn:E; [|reflexivity].
  apply N.eqb_eq in E. subst c. congruence.
Qed.

Lemma opens_tails_clash (r r' : rule) (y : text) :
  In r rules -> In r' rules -> In y (tails1 (tl (r_open r))) ->
  clash (r_open r') y = true.
Proof.
  intros Hr Hr'.
  assert (H : forallb (fun a => forallb (fun b =>
            forallb (clash (r_open b)) (tails1 (tl (r_open a)))) rules) rules = true)
    by (vm_compute; reflexivity).
  rewrite forallb_forall in H. specialize (H r Hr).
  rewrite forallb_forall in H. specialize (H r' Hr').
  rewrite forallb_forall in H. exact (H y).
Qed.

(** No rule other than the one of an old form matches inside its opening
    literal, whatever the rest of the text. *)
Lemma open_block_silent (r r' : rule) (y X : text) :
  In r rules -> In r' rules ->
  In y (tails1 (r_open r)) ->
  (y = r_open r -> match_at r' (r_open r ++ X) = None) ->
  match_at r' (y ++ X) = None.
Proof.
  intros Hr Hr' Hy Hw.
  destruct (rules_open_free r Hr) as [_ Ha].
  destruct (r_open r) as [|a o] eqn:Eo; [discriminate|].
  cbn [tails1] in Hy. destruct Hy as [<-|Hy]; [now apply Hw|].
  unfold match_at. rewrite clash_strip; [reflexivity|].
  apply (opens_tails_clash r r'); auto. now rewrite Eo.
Qed.

Section ClosedOutBlock.

Variables r r' : rule.
Hypothesis Hout : closed_out r r' = true.

Lemma closed_out_block (gs u : text) :
  free (r_excl r) gs = true ->
  match_at r' (gs ++ r_post r ++ u) = None.
Proof.
  destruct (closed_out_inv r r' Hout) as (Ec & (x & post' & Ep & Hx & _) & _).
  intros Hfs. unfold match_at.
  destruct (strip_prefix (r_open r') (gs ++ r_post r ++ u)) as [s1|] eqn:E;
    [|reflexivity].
  rewrite Ep in E. simpl in E.
  apply strip_prefix_within in E as (w' & -> & ->); [|assumption].
  rewrite free_app in Hfs. apply andb_true_iff in Hfs as [_ Hw'].
  rewrite Ec. apply match_plus_skip_none. rewrite <- Ec.
  change (x :: post' ++ u) with ((x :: post') ++ u). rewrite <- Ep.
  now apply closed_out_tail.
Qed.

End ClosedOutBlock.

Lemma snf_closed_out (r' : rule) :
  In r' string_rules -> closed_out rule_server_not_found r' = true.
Proof.
  intros Hr'.
  assert (H : forallb (closed_out rule_server_not_found) string_rules = true)
    by (vm_compute; reflexivity).
  rewrite forallb_forall in H. now apply H.
Qed.

(** No pattern with a quoted argument matches inside the structure written
    for a ServerNotFound call. *)
Lemma snf_block_silent (r' : rule) (g y v : text) :
  In r' string_rules ->
  free rparen g = true ->
  In y (tails1 (new_form rule_server_not_found g)) ->
  match_at r' (y ++ v) = None.
Proof.
  intros Hr' Hg Hy.
  assert (Hsnf : In rule_server_not_found rules) by (simpl; auto 10).
  destruct (pair_tables rule_server_not_found r' Hsnf (string_rules_in_rules r' Hr'))
    as (_ & _ & _ & _ & Hpre & Hpost).
  rewrite forallb_forall in Hpre, Hpost.
  unfold new_form, expand in Hy.
  apply tails1_app in Hy as [(y' & Hy' & ->)|Hy].
  - unfold match_at. rewrite <- app_assoc, clash_strip; auto.
  - apply tails1_app in Hy as [(gs & Hgs & ->)|Hy].
    + rewrite <- app_assoc.
      apply (closed_out_block rule_server_not_found r' (snf_closed_out r' Hr')).
      exact (free_tail _ _ _ Hg Hgs).
    + unfold match_at. rewrite clash_strip; auto.
Qed.

(** ** A ServerNotFound call between two texts *)

Lemma transform_converts_call (w g v : text) :
  closed_calls w = true ->
  valid_group rule_server_not_found g = true ->
  (forall v', close_after_run dq [dq; rparen]
                (old_form rule_server_not_found g ++ v') = None) ->
  (forall r y v', In r [rule_file_system; rule_process; rule_validation] ->
     In y (tails1 (old_form rule_server_not_found g)) -> match_at r (y ++ v') = None) ->
  transform (w ++ old_form rule_server_not_found g ++ v) =
  transform w ++ new_form rule_server_not_found g ++ transform v.
Proof.
  intros Hw Hg Hq Hin. unfold transform. rewrite rules_parts, !apply_rules_app.
  set (l1 := [rule_file_system; rule_process; rule_validation]).
  set (l2 := [rule_internal; rule_authentication; rule_authorization]).
  assert (Eold : old_form rule_server_not_found g =
                 str "AppError::" ++ (str "ServerNotFound(" ++ g ++ str ")"))
    by reflexivity.
  assert (Enew : new_form rule_server_not_found g =
                 str "AppError::" ++
                 (skipn 10 (r_pre rule_server_not_found) ++ g ++
                  r_post rule_server_not_found))
    by reflexivity.
  assert (H1 : forall r, In r l1 -> In r string_rules) by (simpl; intuition).
  assert (H2 : forall r, In r l2 -> In r string_rules) by (simpl; intuition).
  rewrite Eold in Hq, Hin. rewrite Eold.
  rewrite (apply_string_split l1 w _ v H1 Hq Hin).
  change (apply_rules [rule_server_not_found] ?x) with (re_sub rule_server_not_found x).
  rewrite snf_split_gen
    by (apply apply_rules_closed; [intros r Hr; apply string_rules_in_rules; auto|exact Hw]).
  rewrite <- Eold, re_sub_old_form by auto.
  rewrite Enew. apply (apply_string_split l2 _ _ _ H2).
  - intros v'. vm_compute. reflexivity.
  - intros r y v' Hr Hy. rewrite <- Enew in Hy.
    apply (snf_block_silent r g); auto.
    now apply valid_group_inv in Hg as [_ Hg].
Qed.

Lemma quoted_call_block (msg : text) :
  free rparen msg = true ->
  (forall r, In r [rule_file_system; rule_process; rule_validation] ->
             occurs (r_open r) (msg ++ [dq]) = false) ->
  valid_group rule_server_not_found (dq :: msg ++ [dq]) = true /\
  (forall v', close_after_run dq [dq; rparen]
                (old_form rule_server_not_found (dq :: msg ++ [dq]) ++ v') = None) /\
  (forall r y v', In r [rule_file_system; rule_process; rule_validation] ->
     In y (tails1 (old_form rule_server_not_found (dq :: msg ++ [dq]))) ->
     match_at r (y ++ v') = None).
Proof.
  intros Hp Ho.
  assert (Hsnf : In rule_server_not_found rules) by (simpl; auto 10).
  split; [|split].
  - simpl. rewrite free_app, Hp. reflexivity.
  - intros v'. unfold close_after_run, old_form.
    replace ((r_open rule_server_not_found ++ (dq :: msg ++ [dq]) ++
              r_close rule_server_not_found) ++ v')
      with (r_open rule_server_not_found ++ dq :: (msg ++ dq :: rparen :: v'))
      by (rewrite <- !app_assoc; simpl; rewrite <- !app_assoc; reflexivity).
    rewrite skip_run_hit by reflexivity. rewrite strip_prefix_same.
    destruct msg as [|m msg]; [reflexivity|].
    cbn [app]. rewrite strip_prefix_one. rewrite free_cons in Hp.
    apply andb_true_iff in Hp as [Hm _]. apply negb_true_iff in Hm.
    now rewrite N.eqb_sym, Hm.
  - intros r y v' Hr Hy.
    assert (Hr' : In r rules) by (simpl in *; intuition).
    assert (Hne : rule_server_not_found <> r)
      by (simpl in Hr; intros <-; intuition discriminate).
    unfold old_form in Hy. apply tails1_app in Hy as [(y' & Hy' & ->)|Hy].
    + rewrite <- app_assoc. apply (open_block_silent rule_server_not_found r); auto.
      intros _. unfold match_at. rewrite clash_strip; [reflexivity|].
      now apply rules_open_clash.
    + change ((dq :: msg ++ [dq]) ++ r_close rule_server_not_found)
        with (dq :: ((msg ++ [dq]) ++ [rparen])) in Hy.
      cbn [tails1] in Hy. destruct Hy as [<-|Hy];
        [now apply no_match_other_head|].
      apply tails1_app in Hy as [(gs & Hgs & ->)|Hy].
      * rewrite <- app_assoc. apply (no_open_inside r rparen (msg ++ [dq])); auto.
        now apply rules_open_free.
      * destruct Hy as [<-|[]]. now apply no_match_other_head.
Qed.

(** C10 (amended). Rule 4 takes a quoted argument too: an occurrence of a
    ServerNotFound call whose argument is a quoted text without a closing
    parenthesis is rewritten to the ServerError structure with the quotes
    kept in the [server_id] field, and the text before it and the text
    after it are transformed as they are alone, when no ServerNotFound call
    is left open before it and the quoted text with its closing quote does
    not contain the opening literal of one of the three rules that run
    before rule 4 ([AppError::FileSystem(], [AppError::Process(] or
    [AppError::Validation(], each with its double quote); rule 4 matches at
    such a call whatever follows. *)
Theorem quoted_server_id (msg w v : text) :
  free rparen msg = true ->
  occurs (str "AppError::FileSystem(" ++ [dq]) (msg ++ [dq]) = false ->
  occurs (str "AppError::Process(" ++ [dq]) (msg ++ [dq]) = false ->
  occurs (str "AppError::Validation(" ++ [dq]) (msg ++ [dq]) = false ->
  closed_calls w = true ->
  transform (w ++ (str "AppError::ServerNotFound(" ++ [dq] ++ msg ++ [dq] ++ str ")") ++ v) =
    transform w ++
    (str "AppError::ServerError {" ++ [nl] ++
     indent ++ str "message: " ++ [dq] ++ str "Server not found" ++ [dq] ++
       str ".to_string()," ++ [nl] ++
     indent ++ str "server_id: " ++ [dq] ++ msg ++ [dq] ++ str "," ++ [nl] ++
     indent ++ str "operation: " ++ [dq] ++ str "get" ++ [dq] ++
       str ".to_string()," ++ [nl] ++
     outdent ++ str "}") ++
    transform v /\
  forall rest,
    match_at rule_server_not_found
      (str "AppError::ServerNotFound(" ++ [dq] ++ msg ++ [dq] ++ str ")" ++ rest) =
    Some ([dq] ++ msg ++ [dq], rest).
Proof.
  intros Hp Ho1 Ho2 Ho3 Hw.
  destruct (quoted_call_block msg Hp) as (Hg & Hq & Hin).
  { intros r [<-|[<-|[<-|[]]]]; assumption. }
  assert (Eold : forall rest,
            old_form rule_server_not_found (dq :: msg ++ [dq]) ++ rest =
            str "AppError::ServerNotFound(" ++ [dq] ++ msg ++ [dq] ++ str ")" ++ rest).
  { intros rest. unfold old_form. cbn. now rewrite <- !app_assoc. }
  split.
  - pose proof (Eold []) as E0. rewrite !app_nil_r in E0. rewrite <- E0.
    rewrite transform_converts_call by assumption.
    do 2 f_equal. unfold new_form, expand. cbn. rewrite <- !app_assoc. reflexivity.
  - intros rest. rewrite <- Eold. now apply match_at_intro.
Qed.

Lemma quoted_server_id_witness :
  transform (str "Err(" ++
             (str "AppError::ServerNotFound(" ++ [dq] ++ str "srv-1" ++ [dq] ++ str ")") ++
             str ");") =
  transform (str "Err(") ++
  (str "AppError::ServerError {" ++ [nl] ++
   indent ++ str "message: " ++ [dq] ++ str "Server not found" ++ [dq] ++
     str ".to_string()," ++ [nl] ++
   indent ++ str "server_id: " ++ [dq] ++ str "srv-1" ++ [dq] ++ str "," ++ [nl] ++
   indent ++ str "operation: " ++ [dq] ++ str "get" ++ [dq] ++
     str ".to_string()," ++ [nl] ++
   outdent ++ str "}") ++
  transform (str ");").
Proof.
  refine (proj1 (quoted_server_id (str "srv-1") (str "Err(") (str ");") _ _ _ _ _));
    vm_compute; reflexivity.
Defined.

(** C10, as stated, fails: when the quoted text ends with the opening of
    a rule that runs before rule 4, that rule can match from there into
    the text after the call, and rule 4 then finds another closing
    parenthesis; and inside the argument of an open ServerNotFound call
    the quoted call is the server id of that call. *)
Lemma quoted_server_id_lost :
  let msg := str "AppError::FileSystem(" in
  let call := str "AppError::ServerNotFound(" ++ [dq] ++ msg ++ [dq] ++ str ")" in
  let v := str "x" ++ [dq] ++ str ")" in
  free rparen msg = true /\
  occurs (str "server_id: " ++ [dq] ++ msg ++ [dq] ++ str ",") (transform (call ++ v)) = false /\
  occurs (str "server_id: " ++ [dq] ++ str "m" ++ [dq] ++ str ",")
    (transform (str "AppError::ServerNotFound(" ++
                str "AppError::ServerNotFound(" ++ [dq] ++ str "m" ++ [dq] ++ str ")")) = false.
Proof. repeat split; vm_compute; reflexivity. Qed.

(** ** A call with an escaped quote between two texts *)

Lemma first_quote_no_match (r : rule) (lit rest : text) :
  In r string_rules ->
  free dq lit = false ->
  close_after_run dq [dq; rparen] lit = None ->
  match_at r (old_form r lit ++ rest) = None.
Proof.
  intros Hr Hf Hq. destruct (string_rules_shape r Hr) as (Ec & Ecl & _).
  unfold match_at, old_form. rewrite <- app_assoc, strip_prefix_app, Ec, Ecl.
  apply match_plus_skip_none. rewrite <- app_assoc.
  now apply (run_app_found dq rparen lit).
Qed.

Lemma escaped_free (a b : text) : free dq (a ++ [backslash; dq] ++ b) = false.
Proof. rewrite !free_app. simpl. apply andb_false_r. Qed.

Lemma escaped_call_block (r : rule) (lit : text) :
  In r string_rules ->
  free dq lit = false ->
  close_after_run dq [dq; rparen] lit = None ->
  starts_with rparen lit = false ->
  (forall r', In r' rules -> occurs (r_open r') (lit ++ [dq]) = false) ->
  (forall v', close_after_run dq [dq; rparen] (old_form r lit ++ v') = None) /\
  (forall r' y v', In r' rules -> In y (tails1 (old_form r lit)) ->
                   match_at r' (y ++ v') = None).
Proof.
  intros Hr Hf Hq Hp Ho.
  pose proof (string_rules_in_rules r Hr) as Hr0.
  destruct (string_rules_shape r Hr) as (Ec & Ecl & Eo).
  apply ends_sep_inv in Eo as (L & EL & HL).
  split.
  - intros v'. unfold close_after_run, old_form. rewrite EL, <- !app_assoc.
    cbn [app]. rewrite skip_run_hit by assumption. rewrite strip_prefix_same.
    destruct lit as [|c lit]; [discriminate|].
    cbn [app]. rewrite strip_prefix_one. cbn [starts_with] in Hp.
    now rewrite N.eqb_sym, Hp.
  - intros r' y v' Hr' Hy. unfold old_form in Hy.
    apply tails1_app in Hy as [(y' & Hy' & ->)|Hy].
    + rewrite <- app_assoc. apply (open_block_silent r r'); auto.
      intros _. destruct (rule_eq_dec r r') as [<-|Hne].
      * rewrite app_assoc. now apply first_quote_no_match.
      * unfold match_at. rewrite clash_strip; [reflexivity|].
        now apply rules_open_clash.
    + rewrite Ecl in Hy.
      change (lit ++ [dq; rparen]) with (lit ++ [dq] ++ [rparen]) in Hy.
      rewrite app_assoc in Hy.
      apply tails1_app in Hy as [(gs & Hgs & ->)|Hy].
      * rewrite <- app_assoc. apply (no_open_inside r' rparen (lit ++ [dq])); auto.
        now apply rules_open_free.
      * destruct Hy as [<-|[]]. now apply no_match_other_head.
Qed.

(** C7 (amended). A call of one of the six rules with a quoted argument
    whose literal has an escaped double quote, when the first double quote
    of the literal is not immediately followed by a closing parenthesis:
    no such rule matches at the call, whatever follows; and the transform
    leaves an occurrence of the call as it is, and transforms the text
    before it and the text after it as they are alone, when moreover the
    literal does not begin with a closing parenthesis, no opening literal
    of the seven patterns occurs in the literal followed by its closing
    quote, and no ServerNotFound call is left open before the call. *)
Theorem escaped_quote_breaks_match (r : rule) (a b w v : text) :
  In r string_rules ->
  close_after_run dq [dq; rparen] (a ++ [backslash; dq] ++ b) = None ->
  (forall r' rest, In r' string_rules ->
     match_at r' ((r_open r ++ (a ++ [backslash; dq] ++ b) ++ [dq] ++ str ")") ++ rest)
     = None) /\
  (starts_with rparen (a ++ [backslash; dq] ++ b) = false ->
   (forall r', In r' rules ->
      occurs (r_open r') ((a ++ [backslash; dq] ++ b) ++ [dq]) = false) ->
   closed_calls w = true ->
   transform (w ++ (r_open r ++ (a ++ [backslash; dq] ++ b) ++ [dq] ++ str ")") ++ v) =
   transform w ++ (r_open r ++ (a ++ [backslash; dq] ++ b) ++ [dq] ++ str ")") ++
   transform v).
Proof.
  intros Hr Hq.
  pose proof (escaped_free a b) as Hf.
  set (lit := a ++ [backslash; dq] ++ b) in *.
  assert (Eo : r_open r ++ lit ++ [dq] ++ str ")" = old_form r lit).
  { unfold old_form. now destruct (string_rules_shape r Hr) as (_ & -> & _). }
  rewrite Eo. split.
  - intros r' rest Hr'. destruct (rule_eqb r' r) eqn:E.
    + apply rule_eqb_eq in E. subst r'. now apply first_quote_no_match.
    + unfold old_form. rewrite <- app_assoc. now apply other_tag_no_match.
  - intros Hp Ho Hw.
    destruct (escaped_call_block r lit Hr Hf Hq Hp Ho) as [Hg Hin].
    destruct (rules_open_prefix r (string_rules_in_rules r Hr)) as (o & Eop).
    assert (E : old_form r lit = str "AppError::" ++ (o ++ lit ++ r_close r))
      by (unfold old_form; rewrite Eop, <- app_assoc; reflexivity).
    rewrite E in *. now apply transform_keeps_block.
Qed.

Lemma escaped_quote_breaks_match_witness :
  transform (str "f(AppError::ServerNotFound(id)); g(" ++
             (str "AppError::Internal(" ++ [dq] ++ str "a" ++ [backslash; dq] ++
              str "b" ++ [dq] ++ str ")") ++ str ");") =
  transform (str "f(AppError::ServerNotFound(id)); g(") ++
  (str "AppError::Internal(" ++ [dq] ++ str "a" ++ [backslash; dq] ++
   str "b" ++ [dq] ++ str ")") ++ transform (str ");").
Proof.
  refine (proj2 (escaped_quote_breaks_match rule_internal (str "a") (str "b")
                   (str "f(AppError::ServerNotFound(id)); g(") (str ");") _ _) _ _ _).
  - simpl; auto 10.
  - vm_compute; reflexivity.
  - vm_compute; reflexivity.
  - intros r' Hr'. simpl in Hr'.
    repeat (destruct Hr' as [<-|Hr']; [vm_compute; reflexivity|]). destruct Hr'.
  - vm_compute; reflexivity.
Defined.

(** C7, as stated, fails: when the escaped quote is followed by a closing
    parenthesis, the Internal rule matches up to that parenthesis and the
    call is rewritten; a call whose literal begins with a closing
    parenthesis ends the literal of a call left open before it; a literal
    that ends with the opening of a call starts a match that runs into the
    text after the call; and rule 4 rewrites a ServerNotFound call inside
    the literal. *)
Lemma escaped_quote_then_paren_matches :
  let t := str "AppError::Internal(" ++ [dq] ++ str "a" ++ [backslash; dq] ++
           str ")" ++ [dq] ++ str ")" in
  let c1 := str "AppError::Process(" ++ [dq] ++ str ")" ++ [backslash; dq] ++
            str "b" ++ [dq] ++ str ")" in
  let c2 := str "AppError::Process(" ++ [dq] ++ [backslash; dq] ++
            str "AppError::Internal(" ++ [dq] ++ str ")" in
  let c3 := str "AppError::Internal(" ++ [dq] ++ [backslash; dq] ++
            str "AppError::ServerNotFound(x" ++ [dq] ++ str ")" in
  (match_at rule_internal t = Some (str "a" ++ [backslash], [dq] ++ str ")") /\
   transform t <> t) /\
  occurs c1 (transform (str "AppError::Internal(" ++ [dq] ++ str "x" ++ c1)) = false /\
  occurs c2 (transform (c2 ++ str "x" ++ [dq] ++ str ")")) = false /\
  transform c3 <> c3.
Proof.
  split; [split; [vm_compute; reflexivity|apply text_neq; vm_compute; reflexivity]|].
  split; [vm_compute; reflexivity|].
  split; [vm_compute; reflexivity|].
  apply text_neq. vm_compute; reflexivity.
Qed.

(** * Texts whose matches keep apart *)

(** ** The scan *)

Lemma first_match_some (rs : list rule) (s : text) (r : rule) (m : text * text) :
  first_match rs s = Some (r, m) -> In r rs /\ match_at r s = Some m.
Proof.
  induction rs as [|a rs IH]; [discriminate|]. cbn [first_match].
  destruct (match_at a s) as [m'|] eqn:E.
  - intros [= <- <-]. split; [now left|exact E].
  - intros H. destruct (IH H). split; [now right|assumption].
Qed.

Lemma first_match_none (rs : list rule) (s : text) (r : rule) :
  first_match rs s = None -> In r rs -> match_at r s = None.
Proof.
  induction rs as [|a rs IH]; intros H Hr; [destruct Hr|].
  cbn [first_match] in H. destruct (match_at a s) eqn:E; [discriminate|].
  destruct Hr as [<-|Hr]; auto.
Qed.

Lemma apart_fuel_stable (strict : bool) (n m : nat) (t : text) :
  length t < n -> length t < m -> apart_fuel strict n t = apart_fuel strict m t.
Proof.
  revert m t. induction n as [|n IH]; intros m t Hn Hm; [lia|].
  destruct m as [|m]; [lia|]. cbn [apart_fuel].
  destruct (first_match rules t) as [[r [g rest]]|] eqn:E.
  - apply first_match_some in E as [_ E]. apply match_at_length in E.
    f_equal. apply IH; lia.
  - destruct t as [|a t]; [reflexivity|]. simpl in Hn, Hm. apply IH; lia.
Qed.

Lemma match_excl (r r' : rule) (s : text) (m : text * text) :
  In r rules -> In r' rules -> r <> r' ->
  match_at r s = Some m -> match_at r' s = None.
Proof.
  intros Hr Hr' Hne H. destruct m as [g rest].
  apply match_at_inv in H as [_ ->]; [|now apply rules_wf].
  unfold match_at, old_form. rewrite <- app_assoc, clash_strip; [reflexivity|].
  now apply rules_open_clash.
Qed.

Lemma others_in (r r' : rule) : In r' rules -> r' <> r -> In r' (others r).
Proof.
  intros Hr' Hne. unfold others. apply filter_In. split; [assumption|].
  apply negb_true_iff. destruct (rule_eqb r' r) eqn:E; [|reflexivity].
  now apply rule_eqb_eq in E.
Qed.

Lemma apart_ind (strict : bool) (P : text -> Prop) :
  P [] ->
  (forall a t, (forall r, In r rules -> match_at r (a :: t) = None) ->
               apart_fuel strict (S (length t)) t = true -> P t -> P (a :: t)) ->
  (forall r g t, In r rules -> valid_group r g = true ->
     (forall r' y, In r' rules -> r' <> r -> In y (tails1 (tl (old_form r g))) ->
                   match_at r' (y ++ t) = None) ->
     (strict = true ->
      closed_group r g = true /\
      forall y, In y (tails1 (tl (old_form r g))) -> match_at r (y ++ t) = None) ->
     apart_fuel strict (S (length t)) t = true -> P t -> P (old_form r g ++ t)) ->
  forall t, apart_fuel strict (S (length t)) t = true -> P t.
Proof.
  intros Hnil Hskip Hocc t.
  remember (length t) as n eqn:Hn. revert t Hn.
  induction n as [n IH] using lt_wf_ind. intros t Hn H.
  cbn [apart_fuel] in H.
  destruct (first_match rules t) as [[r [g rest]]|] eqn:E.
  - apply first_match_some in E as [Hr E].
    pose proof (match_at_length _ _ _ _ E) as Hlen.
    apply match_at_inv in E as [Hg ->]; [|now apply rules_wf].
    apply andb_true_iff in H as [H H3].
    rewrite (apart_fuel_stable strict _ (S (length rest))) in H3 by lia.
    apply Hocc; auto.
    + intros r' y Hr' Hne Hy. destruct strict.
      * apply andb_true_iff in H as [_ H].
        exact (none_in_all rules _ rest H r' y Hr' Hy).
      * exact (none_in_all (others r) _ rest H r' y (others_in r r' Hr' Hne) Hy).
    + intros ->. apply andb_true_iff in H as [H1 H2]. split; [exact H1|].
      intros y Hy. exact (none_in_all rules _ rest H2 r y Hr Hy).
    + apply (IH (length rest)); [lia|reflexivity|exact H3].
  - destruct t as [|a t]; [exact Hnil|].
    simpl in Hn. rewrite (apart_fuel_stable strict _ (S (length t))) in H by (simpl; lia).
    apply Hskip; auto.
    + intros r Hr. now apply (first_match_none rules).
    + apply (IH (length t)); [lia|reflexivity|exact H].
Qed.

(** ** Positions where nothing matches *)



(** Where none of the rules of [Q] matches, none of them will after the
    substitutions of rules of [Q]. *)
Lemma dead_stay (Q : rule -> Prop) (rs : list rule) (w t : text) :
  (forall r, In r rs -> In r rules /\ Q r) ->
  (forall r y, In r rules -> Q r -> In y (tails1 w) -> match_at r (y ++ t) = None) ->
  apply_rules rs (w ++ t) = w ++ apply_rules rs t /\
  (forall r y, In r rules -> Q r -> In y (tails1 w) ->
               match_at r (y ++ apply_rules rs t) = None).
Proof.
  revert t. induction rs as [|a rs IH]; intros t Hrs Hd; [split; [reflexivity|exact Hd]|].
  change (apply_rules (a :: rs) ?x) with (apply_rules rs (re_sub a x)).
  destruct (Hrs a (or_introl eq_refl)) as [Ha HQa].
  rewrite re_sub_skip_app by (intros y Hy; now apply Hd).
  apply IH; [intros r Hr; apply Hrs; now right|].
  intros r y Hr HQ Hy.
  rewrite <- re_sub_skip_app
    by (intros z Hz; apply Hd; auto; now apply (tails1_trans w y)).
  apply pair_transfer; auto.
Qed.

(** ** The structure written for a match *)

Lemma pair_group (r r' : rule) (g gs t u : text) :
  In r rules -> In r' rules ->
  valid_group r g = true ->
  (r = r' -> occurs (r_open r) g = false) ->
  In gs (tails1 g) ->
  (close_after_run (r_excl r') (r_close r') t = None ->
   close_after_run (r_excl r') (r_close r') u = None) ->
  match_at r' (gs ++ r_close r ++ t) = None ->
  match_at r' (gs ++ r_post r ++ u) = None.
Proof.
  intros Hr Hr' Hg Hown Hgs Hrun Hold.
  destruct (rule_eq_dec r r') as [<-|Hne].
  - specialize (Hown eq_refl). destruct (rules_split r Hr) as [->|Hs].
    + unfold match_at.
      destruct (strip_prefix (r_open rule_server_not_found)
                  (gs ++ r_post rule_server_not_found ++ u)) as [s1|] eqn:E;
        [|reflexivity].
      exfalso.
      change (r_post rule_server_not_found ++ u)
        with (N_of_ascii "," :: tl (r_post rule_server_not_found) ++ u) in E.
      apply strip_prefix_within in E as (w' & E & _); [|vm_compute; reflexivity].
      now rewrite (occurs_tail _ _ _ _ Hgs E) in Hown.
    + apply (same_class_group r r (rules_wf r Hr) (string_rules_same_class r Hs)
               g gs t u); auto.
  - pose proof (rules_compatible r r' Hr Hr' Hne) as H.
    unfold compatible in H. apply andb_true_iff in H as [_ Hclass].
    apply orb_true_iff in Hclass as [Hclass|Hclass];
      [apply orb_true_iff in Hclass as [Hclass|Hclass]|].
    + apply (same_class_group r r' (rules_wf r' Hr') Hclass g gs t u); auto.
    + apply (closed_out_group r r' Hclass g gs t u); auto.
    + apply (closed_in_group r r' Hclass g gs t u); auto.
Qed.

Lemma block_silent (r r' : rule) (g t u y : text) :
  In r rules -> In r' rules ->
  valid_group r g = true ->
  (r = r' -> occurs (r_open r) g = false) ->
  (close_after_run (r_excl r') (r_close r') t = None ->
   close_after_run (r_excl r') (r_close r') u = None) ->
  (forall gs, In gs (tails1 g) -> match_at r' (gs ++ r_close r ++ t) = None) ->
  In y (tails1 (new_form r g)) ->
  match_at r' (y ++ u) = None.
Proof.
  intros Hr Hr' Hg Hown Hrun Hold Hy.
  destruct (pair_tables r r' Hr Hr') as (_ & _ & _ & _ & Hpre & Hpost).
  rewrite forallb_forall in Hpre, Hpost.
  unfold new_form, expand in Hy.
  apply tails1_app in Hy as [(y' & Hy' & ->)|Hy].
  - unfold match_at. rewrite <- app_assoc, clash_strip; auto.
  - apply tails1_app in Hy as [(gs & Hgs & ->)|Hy].
    + rewrite <- app_assoc. apply (pair_group r r' g gs t u); auto.
    + unfold match_at. rewrite clash_strip; auto.
Qed.

Lemma group_in_old_form (r : rule) (g gs : text) :
  In r rules -> In gs (tails1 g) ->
  In (gs ++ r_close r) (tails1 (tl (old_form r g))).
Proof.
  intros Hr Hgs. destruct (rules_open_free r Hr) as [_ Ha].
  unfold old_form. destruct (r_open r) as [|a o]; [discriminate|].
  cbn [app tl]. apply tails1_split in Hgs as (x & -> & Hne).
  apply (tails1_in _ (o ++ x)).
  - now rewrite <- !app_assoc.
  - destruct gs; [congruence|discriminate].
Qed.

(** ** The substitutions, one match at a time *)

Lemma apply_rules_skip (rs : list rule) (a : char) (t : text) :
  (forall r, In r rs -> In r rules) ->
  (forall r, In r rules -> match_at r (a :: t) = None) ->
  apply_rules rs (a :: t) = a :: apply_rules rs t.
Proof.
  intros Hrs Hd.
  apply (dead_stay (fun _ => True) rs [a] t).
  - intros r Hr. split; [now apply Hrs|exact I].
  - intros r y Hr _ [<-|[]]. now apply Hd.
Qed.

Lemma apply_rules_occ (p : list rule) (r : rule) (g t : text) :
  NoDup p -> (forall a, In a p -> In a rules) -> In r p ->
  valid_group r g = true ->
  (forall r' y, In r' rules -> r' <> r -> In y (tails1 (tl (old_form r g))) ->
                match_at r' (y ++ t) = None) ->
  apply_rules p (old_form r g ++ t) = new_form r g ++ apply_rules p t.
Proof.
  intros Hnd Hp Hin Hg Hd.
  assert (Hr : In r rules) by now apply Hp.
  pose proof (rules_wf r Hr) as Hc.
  apply in_split in Hin as (p1 & p2 & ->).
  apply NoDup_remove_2 in Hnd.
  assert (Hp1 : forall a, In a p1 -> In a rules /\ a <> r).
  { intros a Ha. split; [apply Hp, in_or_app; now left|].
    intros ->. apply Hnd, in_or_app. now left. }
  assert (Hp2 : forall a, In a p2 -> In a rules /\ a <> r).
  { intros a Ha. split; [apply Hp, in_or_app; right; now right|].
    intros ->. apply Hnd, in_or_app. now right. }
  rewrite !apply_rules_app.
  change (apply_rules (r :: p2) ?x) with (apply_rules p2 (re_sub r x)).
  destruct (dead_stay (fun a => a <> r) p1 (old_form r g) t Hp1) as [E1 D1].
  { intros r' y Hr' Hne Hy.
    destruct (old_form_cons r g Hg) as (a & l & El). rewrite El in Hy, Hd.
    cbn [tails1] in Hy. destruct Hy as [<-|Hy]; [|now apply Hd].
    rewrite <- El. apply (match_excl r r' _ (g, t)); auto.
    now apply match_at_intro. }
  rewrite E1, re_sub_old_form by assumption.
  apply (dead_stay (fun a => a <> r) p2); [exact Hp2|].
  intros r' y Hr' Hne Hy.
  apply (block_silent r r' g (apply_rules p1 t) (re_sub r (apply_rules p1 t)) y); auto.
  - intros E. congruence.
  - now apply pair_run_transfer.
  - intros gs Hgs. rewrite app_assoc. apply D1; auto.
    apply (tails1_trans _ (tl (old_form r g))).
    + destruct (old_form_cons r g Hg) as (a & l & El). rewrite El.
      cbn [tl tails1]. destruct l as [|b l]; [|now right; left].
      exfalso. pose proof (group_in_old_form r g gs Hr Hgs) as H.
      rewrite El in H. destruct H.
    + now apply group_in_old_form.
Qed.

(** ** Any order, and a second run *)

Lemma apply_rules_nil (rs : list rule) : apply_rules rs [] = [].
Proof.
  induction rs as [|r rs IH]; [reflexivity|].
  change (apply_rules (r :: rs) []) with (apply_rules rs (re_sub r [])).
  now rewrite re_sub_nil.
Qed.

(** C5 (amended). On a text in which the matches of different rules keep
    apart (going through the text from the left, one match after the
    other, no match of another rule begins inside a match), the seven
    substitutions give the same result in every order. *)
Theorem order_irrelevant_apart (p : list rule) (t : text) :
  Permutation p rules ->
  rules_apart t = true ->
  apply_rules p t = transform t.
Proof.
  intros Hp.
  assert (Hnd : NoDup p)
    by (apply (Permutation_NoDup (Permutation_sym Hp)), rules_NoDup).
  assert (Hsub : forall a, In a p -> In a rules)
    by (intros a Ha; now apply (Permutation_in _ Hp)).
  unfold rules_apart, transform. revert t.
  apply (apart_ind false (fun t => apply_rules p t = apply_rules rules t)).
  - now rewrite !apply_rules_nil.
  - intros a t Hd _ IH. rewrite !apply_rules_skip; auto. now rewrite IH.
  - intros r g t Hr Hg Hd _ _ IH.
    rewrite !apply_rules_occ; auto using rules_NoDup.
    + now rewrite IH.
    + now apply (Permutation_in _ (Permutation_sym Hp)).
Qed.

Lemma order_irrelevant_apart_witness :
  apply_rules (rev rules)
    (str "a(AppError::Internal(" ++ [dq] ++ str "x" ++ [dq] ++
     str ")); b(AppError::ServerNotFound(id)); c(AppError::FileSystem(" ++ [dq] ++
     str "y" ++ [dq] ++ str "));") =
  transform
    (str "a(AppError::Internal(" ++ [dq] ++ str "x" ++ [dq] ++
     str ")); b(AppError::ServerNotFound(id)); c(AppError::FileSystem(" ++ [dq] ++
     str "y" ++ [dq] ++ str "));").
Proof.
  refine (order_irrelevant_apart (rev rules) _ _ _).
  - apply Permutation_sym, Permutation_rev.
  - vm_compute; reflexivity.
Defined.

(** C5, as stated, fails: with rule 4 moved to the front, a FileSystem call
    whose literal is a ServerNotFound call comes out differently. *)
Lemma order_matters :
  let t := old_form rule_file_system (str "AppError::ServerNotFound(x)") in
  let p := [rule_server_not_found; rule_file_system; rule_process;
            rule_validation; rule_internal; rule_authentication;
            rule_authorization] in
  Permutation p rules /\ apply_rules p t <> transform t.
Proof.
  split.
  - exact (Permutation_middle [rule_file_system; rule_process; rule_validation]
             [rule_internal; rule_authentication; rule_authorization]
             rule_server_not_found).
  - apply text_neq. vm_compute; reflexivity.
Qed.



